(** * sumo-web3d streaming server: delta engine, entity construction,
      scenario registry and simulation controller

    A shallow embedding of [backend/server/server.py].  Python dictionaries
    are stdpp [gmap]s, exceptions are an error monad, the module-level
    globals of the server and the locals of the websocket handler are one
    explicit state record, and the two cooperating coroutines (message loop
    and tick loop) are a labelled step function whose labels are the points
    at which the event loop resumes one of them. *)

From Stdlib Require Import ZArith Ascii String List.
From stdpp Require Import base decidable option list strings pretty gmap fin_maps fin_sets.

Local Open Scope string_scope.

(** ** Python exceptions as an error monad *)

Module Py.

Inductive exn : Type :=
  | KeyError (key : string)
  | ValueError
  | TypeError
  | RuntimeError
  | ConnectionResetError
  | Exception (msg : string).

Inductive Res (A : Type) : Type :=
  | Ok (a : A)
  | Raise (e : exn).
Arguments Ok {A} a.
Arguments Raise {A} e.

#[global] Instance exn_eq_dec : EqDecision exn.
Proof. solve_decision. Defined.

#[global] Instance Res_eq_dec {A} `{EqDecision A} : EqDecision (Res A).
Proof. solve_decision. Defined.

#[global] Instance Res_ret : MRet Res := fun _ a => Ok a.
#[global] Instance Res_bind : MBind Res := fun _ _ k m =>
  match m with
  | Ok a => k a
  | Raise e => Raise e
  end.

(** Whether a computation returned. *)
Definition is_ok {A} (r : Res A) : bool :=
  match r with
  | Ok _ => true
  | Raise _ => false
  end.

(** [d[k]]: subscripting a dict raises [KeyError] on a missing key. *)
Definition getitem {V} (d : gmap string V) (k : string) : Res V :=
  match d !! k with
  | Some v => Ok v
  | None => Raise (KeyError k)
  end.

(** [k in d] *)
Definition contains {V} (d : gmap string V) (k : string) : bool :=
  bool_decide (is_Some (d !! k)).

(** *** The string methods the server uses (on ASCII text) *)

Definition lower_ascii (c : ascii) : ascii :=
  let n := nat_of_ascii c in
  if (65 <=? n)%nat && (n <=? 90)%nat then ascii_of_nat (n + 32) else c.

Fixpoint map_string (f : ascii → ascii) (s : string) : string :=
  match s with
  | EmptyString => EmptyString
  | String c s' => String (f c) (map_string f s')
  end.

(** [s.lower()] *)
Definition lower (s : string) : string := map_string lower_ascii s.

(** [s.replace(old, new)] for one-character [old] and [new] *)
Definition replace (old new : ascii) (s : string) : string :=
  map_string (fun c => if decide (c = old) then new else c) s.

(** [s.split(sep)] for a one-character separator: never returns the
    empty list, [''.split(',')] is [['']]. *)
Fixpoint split (sep : ascii) (s : string) : list string :=
  match s with
  | EmptyString => [EmptyString]
  | String c s' =>
      if decide (c = sep) then EmptyString :: split sep s'
      else match split sep s' with
           | w :: ws => String c w :: ws
           | [] => [String c EmptyString]
           end
  end.

Definition is_space (c : ascii) : bool :=
  let n := nat_of_ascii c in
  ((9 <=? n)%nat && (n <=? 13)%nat) || ((28 <=? n)%nat && (n <=? 32)%nat).

Fixpoint lstrip (s : string) : string :=
  match s with
  | String c s' => if is_space c then lstrip s' else s
  | EmptyString => EmptyString
  end.

Fixpoint rstrip (s : string) : string :=
  match s with
  | EmptyString => EmptyString
  | String c s' =>
      match rstrip s' with
      | EmptyString => if is_space c then EmptyString else String c EmptyString
      | r => String c r
      end
  end.

(** [s.strip()] *)
Definition strip (s : string) : string := rstrip (lstrip s).

(** Truthiness of an optional path: [None] and [''] are falsy. *)
Definition truthy (p : option string) : bool :=
  match p with
  | Some (String _ _) => true
  | _ => false
  end.

End Py.
Import Py.

(** ** Floating-point numbers

    The server only ever builds floats with the builtin [float(...)], from
    the two literals [4.5] and [1.8], and by [str(float(t) * 1000)].  These
    are taken as an interface over a carrier type: [float s = None] is
    Python's [ValueError] for a string that is not a number. *)

Class PyFloatType : Type := pyfloat : Type.

Class PyFloat `{PyFloatType} : Type := {
  pyfloat_eq_dec :: EqDecision pyfloat;
  float : string → option pyfloat;
  lit_4_5 : pyfloat;
  lit_1_8 : pyfloat;
  str_times_1000 : pyfloat → string;
}.

Definition float_of `{PyFloat} (s : string) : Res pyfloat :=
  match float s with
  | Some f => Ok f
  | None => Raise ValueError
  end.

(** ** Entity model (server.py, [parse_color] and [read_fcd_vehicle]) *)

Section EntityModel.
Context `{PyFloat}.

(** The values stored in an entity dict. *)
Inductive PyVal : Type :=
  | VFloat (f : pyfloat)
  | VInt (n : Z)
  | VStr (s : string)
  | VList (l : list string).

#[global] Instance PyVal_eq_dec : EqDecision PyVal.
Proof. solve_decision. Defined.

(** A raw record is the attribute dict of one [<vehicle>] element, a
    [gmap string string]: every value is text.  An entity is the dict sent
    to the viewer, a [gmap string PyVal]. *)

Definition parse_color (vehicle : gmap string string) : gmap string PyVal :=
  match vehicle !! "color" with
  | Some c => {[ "color" := VList (strip <$> split "," c) ]}
  | None => ∅
  end.

(** The function first rewrites [vehicle['type']] in place; the record is
    a fresh dict of the parser at every call, so the write is kept as a
    local rebinding.  The entries of the dict literal are evaluated in
    source order, and the unpacked [parse_color] entries come last. *)
Definition read_fcd_vehicle (vehicle : gmap string string) : Res (gmap string PyVal) :=
  ty ← getitem vehicle "type";
  let vehicle : gmap string string :=
    if decide (ty = "DEFAULT_VEHTYPE") then <["type" := "car"]> vehicle else vehicle in
  x ← getitem vehicle "x" ≫= float_of;
  y ← getitem vehicle "y" ≫= float_of;
  speed ← getitem vehicle "speed" ≫= float_of;
  angle ← getitem vehicle "angle";
  type ← getitem vehicle "type";
  vClass ← (if contains vehicle "vClass" then getitem vehicle "vClass"
            else Ok "passenger");
  Ok (parse_color vehicle ∪
      (list_to_map
         [ ("x", VFloat x); ("y", VFloat y); ("z", VInt 0);
           ("speed", VFloat speed); ("angle", VStr angle);
           ("type", VStr type); ("vClass", VStr vClass);
           ("length", VFloat lit_4_5); ("width", VFloat lit_1_8);
           ("signals", VInt 0) ] : gmap string PyVal)).

(** ** Delta engine *)

Inductive DeltaEntry : Type :=
  | Payload (e : gmap string PyVal)
  | Tombstone.

#[global] Instance DeltaEntry_eq_dec : EqDecision DeltaEntry.
Proof. solve_decision. Defined.

(** Modelled from the spec: [deltas.diff_dicts] is imported by server.py
    and sumo.py but its module is not among the sources.  Following 4.2:
    every id of [current] that is absent from [previous] or unequal in
    value is emitted with its complete current object; every id of
    [previous] absent from [current] is emitted as a tombstone.  Equality
    is structural equality of the whole entity. *)
Definition diff_dicts (previous current : gmap string (gmap string PyVal))
  : gmap string DeltaEntry :=
  (Payload <$> filter (fun kv => previous !! kv.1 ≠ Some kv.2) current)
  ∪ ((fun _ => Tombstone) <$> filter (fun kv => current !! kv.1 = None) previous).

(** ** One recorded timestep (server.py, [read_next_step]) *)

(** [Counter(...)]: how often each key occurs. *)
Definition Counter (ks : list string) : gmap string nat :=
  foldl (fun c k => <[k := S (default 0 (c !! k))]> c) ∅ ks.

Record Snapshot : Type := mkSnapshot {
  snap_time : string;
  snap_vehicles : gmap string DeltaEntry;
  snap_vehicle_counts : gmap string nat;
  snap_lane_distributions : option (list string);
}.

(** The dict comprehension [{vehicle['id']: read_fcd_vehicle(vehicle) for
    vehicle in vehicles}]: key before value, a later record with the same
    id replaces an earlier one. *)
Fixpoint vehicles_by_id (vehicles : list (gmap string string))
    (acc : gmap string (gmap string PyVal)) : Res (gmap string (gmap string PyVal)) :=
  match vehicles with
  | [] => Ok acc
  | vehicle :: rest =>
      id ← getitem vehicle "id";
      e ← read_fcd_vehicle vehicle;
      vehicles_by_id rest (<[id := e]> acc)
  end.

(** [v['vClass']], the key that [Counter] counts; every entity built by
    [read_fcd_vehicle] holds a string there. *)
Definition vClass_of (e : gmap string PyVal) : Res string :=
  v ← getitem e "vClass";
  match v with
  | VStr s => Ok s
  | _ => Raise TypeError
  end.

(** Returns the snapshot and the new value of the global [last_vehicles];
    when it raises, the global has not been assigned.  The two wall-clock
    fields [simulate_secs] and [snapshot_secs] are left out. *)
Definition read_next_step (timestep : string) (vehicles : list (gmap string string))
    (last_vehicles : gmap string (gmap string PyVal))
  : Res (Snapshot * gmap string (gmap string PyVal)) :=
  vehicles ← vehicles_by_id vehicles ∅;
  classes ← mapM vClass_of (map_to_list vehicles).*2;
  let vehicle_counts := Counter classes in
  let vehicles_update := diff_dicts last_vehicles vehicles in
  t ← float_of timestep;
  Ok (mkSnapshot (str_times_1000 t) vehicles_update vehicle_counts None, vehicles).

End EntityModel.

(** ** Scenario registry (server.py, [to_kebab_case], [Scenario],
       [load_scenarios_file]) *)

Definition to_kebab_case (scenario_name : string) : string :=
  replace "_" "-" (replace " " "-" (lower scenario_name)).

(** One entry of scenarios.json. *)
Record ScenarioJson : Type := mkScenarioJson {
  j_name : string;
  j_config_file : string;
  j_is_default : option bool;
  j_fcd_file : option string;
  j_lane_distr_file : option string;
  j_lanemap_file : option string;
}.

(** What [from_config_json] reads from disk, as serialised text. *)
Record ConfigFiles : Type := mkConfigFiles {
  network : string;
  additional : option string;
  settings : option string;
  water : string;
  lanemap : option string;
}.

Record Scenario : Type := mkScenario {
  config_file : string;
  display_name : string;
  name : string;
  is_default : bool;
  files : ConfigFiles;
  fcd_file : option string;
  lane_distr_file : option string;
}.

Definition is_live (s : Scenario) : bool :=
  match fcd_file s with
  | None => true
  | Some _ => false
  end.

Section Registry.
(** The file system: [join_dir] is [os.path.join(SCENARIOS_DIR, ...)] after
    variable and home expansion, [read_config] is the parsing of the
    configuration, network, additional, settings, water and lane-map
    files, which raises when one of them is missing or malformed. *)
Variable join_dir : string → string.
Variable read_config : ScenarioJson → Res ConfigFiles.

Definition expand_path (filename : option string) : option string :=
  if truthy filename then join_dir <$> filename else None.

Definition from_config_json (scenarios_json : ScenarioJson) : Res Scenario :=
  sumocfg_file ← match expand_path (Some (j_config_file scenarios_json)) with
                  | Some p => Ok p
                  | None => Raise TypeError
                  end;
  fs ← read_config scenarios_json;
  let fcd := if truthy (j_fcd_file scenarios_json)
             then expand_path (j_fcd_file scenarios_json)
             else j_fcd_file scenarios_json in
  let lane := if truthy (j_lane_distr_file scenarios_json)
              then expand_path (j_lane_distr_file scenarios_json)
              else j_lane_distr_file scenarios_json in
  Ok (mkScenario sumocfg_file (j_name scenarios_json)
        (to_kebab_case (j_name scenarios_json))
        (default false (j_is_default scenarios_json)) fs fcd lane).

(** The loop [for new_scenario in updates: ... next_scenarios.update(...)]. *)
Fixpoint add_scenarios (updates : list ScenarioJson) (next_scenarios : gmap string Scenario)
  : Res (gmap string Scenario) :=
  match updates with
  | [] => Ok next_scenarios
  | new_scenario :: rest =>
      scenario ← from_config_json new_scenario;
      add_scenarios rest (<[name scenario := scenario]> next_scenarios)
  end.

(** [scenarios_file] is [None] for a falsy path and otherwise the decoded
    content of the file.  [next_scenarios] is the caller's dict itself; the
    model returns the updated dict and, when a configuration cannot be
    read, the exception only. *)
Definition load_scenarios_file (prev_scenarios : gmap string Scenario)
    (scenarios_file : option (list ScenarioJson)) : Res (gmap string Scenario) :=
  match scenarios_file with
  | None => Ok prev_scenarios
  | Some new_scenarios =>
      let new_scenarios_names := (fun x => to_kebab_case (j_name x)) <$> new_scenarios in
      let duplicates :=
        bool_decide (length new_scenarios_names
                     ≠ size (list_to_set new_scenarios_names : gset string)) in
      if duplicates then
        Raise (Exception
          "Invalid scenarios.json, cannot have two scenarios with thesame kebab case name")
      else
        let prev_scenario_names : gset string :=
          list_to_set (name <$> (map_to_list prev_scenarios).*2) in
        let updates :=
          filter (fun s => to_kebab_case (j_name s) ∉ prev_scenario_names) new_scenarios in
        add_scenarios updates prev_scenarios
  end.

End Registry.

(** ** Simulation controller and streaming session
       (server.py, [run_simulation], [cleanup_sumo_simulation],
       [websocket_simulation_control]) *)

Inductive Status : Type := STATUS_OFF | STATUS_RUNNING | STATUS_PAUSED.

#[global] Instance Status_eq_dec : EqDecision Status.
Proof. solve_decision. Defined.

(** An asyncio task: still scheduled, returned, died of an exception, or
    cancelled. *)
Inductive TaskState : Type :=
  | Pending
  | Finished
  | Failed (e : exn)
  | Cancelled.

#[global] Instance TaskState_eq_dec : EqDecision TaskState.
Proof. solve_decision. Defined.

(** An inbound websocket message as the handler distinguishes them: a text
    frame holding a JSON object (with the three keys the handler reads), an
    error frame, or a frame of another type.  [CLOSE] ends the handler's
    [async for] loop. *)
Inductive WsMsg : Type :=
  | TEXT (type action : option string) (delayLengthMs : option Z)
  | ERROR
  | OTHER
  | CLOSE.

(** What the event loop resumes next: the message loop with one inbound
    message, or the tick-loop task number [i] at the top of its
    [while True].  [send_ok = false] says that the [ws.send_str] of that
    step raises [ConnectionResetError]. *)
Inductive event : Type :=
  | Recv (msg : WsMsg) (send_ok : bool)
  | Tick (i : nat) (send_ok : bool).

Inductive HandlerState : Type :=
  | Serving
  | Returned
  | Raised (e : exn).

Section Controller.
Context `{PyFloat}.

(** The locals of one [run_simulation] coroutine: the two generators, as
    the timesteps and blocks they have not yet yielded. *)
Record Task : Type := mkTask {
  fcd_parser : option (list (string * list (gmap string string)));
  lane_distr_parser : option (list (list string));
  task_state : TaskState;
}.

Inductive OutMsg : Type :=
  | StateMsg (delayMs : Z) (scenario : string) (simulationStatus : Status)
  | SnapshotMsg (s : Snapshot).

(** The module globals, the handler's local [task] (an index into the
    tasks created so far), the frames written to the socket, and three
    call counters: [sumo_start_fn], [stop_sumo], and [next(fcd_parser)]. *)
Record State : Type := mkState {
  simulation_status : Status;
  delay_length_ms : Z;
  last_vehicles : gmap string (gmap string PyVal);
  last_lights : gmap string (gmap string PyVal);
  task : option nat;
  tasks : list Task;
  sent : list OutMsg;
  handler : HandlerState;
  start_sumo_calls : nat;
  stop_sumo_calls : nat;
  next_calls : nat;
}.

(** The session's scenario ([current_scenario]) and what [parse_fcd] and
    [parse_lane_distr] yield for its two files. *)
Variable current_scenario : Scenario.
Variable fcd_log : list (string * list (gmap string string)).
Variable lane_log : list (list string).

Definition set_status (s : Status) (st : State) : State :=
  mkState s (delay_length_ms st) (last_vehicles st) (last_lights st) (task st)
    (tasks st) (sent st) (handler st) (start_sumo_calls st) (stop_sumo_calls st)
    (next_calls st).

Definition set_delay (d : Z) (st : State) : State :=
  mkState (simulation_status st) d (last_vehicles st) (last_lights st) (task st)
    (tasks st) (sent st) (handler st) (start_sumo_calls st) (stop_sumo_calls st)
    (next_calls st).

Definition set_last (lv ll : gmap string (gmap string PyVal)) (st : State) : State :=
  mkState (simulation_status st) (delay_length_ms st) lv ll (task st)
    (tasks st) (sent st) (handler st) (start_sumo_calls st) (stop_sumo_calls st)
    (next_calls st).

Definition set_tasks (h : option nat) (ts : list Task) (st : State) : State :=
  mkState (simulation_status st) (delay_length_ms st) (last_vehicles st)
    (last_lights st) h ts (sent st) (handler st) (start_sumo_calls st)
    (stop_sumo_calls st) (next_calls st).

Definition send (m : OutMsg) (st : State) : State :=
  mkState (simulation_status st) (delay_length_ms st) (last_vehicles st)
    (last_lights st) (task st) (tasks st) (sent st ++ [m]) (handler st)
    (start_sumo_calls st) (stop_sumo_calls st) (next_calls st).

Definition set_handler (h : HandlerState) (st : State) : State :=
  mkState (simulation_status st) (delay_length_ms st) (last_vehicles st)
    (last_lights st) (task st) (tasks st) (sent st) h
    (start_sumo_calls st) (stop_sumo_calls st) (next_calls st).

Definition count_start_sumo (st : State) : State :=
  mkState (simulation_status st) (delay_length_ms st) (last_vehicles st)
    (last_lights st) (task st) (tasks st) (sent st) (handler st)
    (S (start_sumo_calls st)) (stop_sumo_calls st) (next_calls st).

Definition count_stop_sumo (st : State) : State :=
  mkState (simulation_status st) (delay_length_ms st) (last_vehicles st)
    (last_lights st) (task st) (tasks st) (sent st) (handler st)
    (start_sumo_calls st) (S (stop_sumo_calls st)) (next_calls st).

Definition count_next (st : State) : State :=
  mkState (simulation_status st) (delay_length_ms st) (last_vehicles st)
    (last_lights st) (task st) (tasks st) (sent st) (handler st)
    (start_sumo_calls st) (stop_sumo_calls st) (S (next_calls st)).

Definition set_task (i : nat) (t : Task) (st : State) : State :=
  set_tasks (task st) (<[i := t]> (tasks st)) st.

(** [get_state_websocket_message()] *)
Definition get_state_websocket_message (st : State) : OutMsg :=
  StateMsg (delay_length_ms st) (to_kebab_case (name current_scenario))
    (simulation_status st).

(** The state at process start. *)
Definition initial : State :=
  mkState STATUS_OFF 30 ∅ ∅ None [] [] Serving 0 0 0.

(** *** The tick loop *)

(** The coroutine object made by [run_simulation(ws)]: both generators are
    created before the loop, each only for a truthy path. *)
Definition new_task : Task :=
  mkTask (if truthy (fcd_file current_scenario) then Some fcd_log else None)
         (if truthy (lane_distr_file current_scenario) then Some lane_log else None)
         Pending.

Definition fail (i : nat) (t : Task) (e : exn) (st : State) : State :=
  set_task i (mkTask (fcd_parser t) (lane_distr_parser t) (Failed e)) st.

(** One iteration of [while True] of task [i], up to its [asyncio.sleep].
    An exhausted generator raises [StopIteration], which a coroutine turns
    into [RuntimeError]; the live branch calls [simulate_next_step()]
    without the two arguments its definition in sumo.py requires. *)
Definition tick (i : nat) (send_ok : bool) (st : State) : State :=
  match tasks st !! i with
  | Some t =>
      match task_state t with
      | Pending =>
          if decide (simulation_status st = STATUS_RUNNING) then
            match fcd_parser t with
            | Some [] => fail i t RuntimeError (count_next st)
            | Some ((timestep, vehicles) :: rest) =>
                let st := count_next st in
                let t := mkTask (Some rest) (lane_distr_parser t) Pending in
                match read_next_step timestep vehicles (last_vehicles st) with
                | Raise e => fail i t e st
                | Ok (snapshot, vehicles) =>
                    let st := set_last vehicles (last_lights st) st in
                    let step :=
                      match lane_distr_parser t with
                      | None => Ok (snapshot, t)
                      | Some [] => Raise RuntimeError
                      | Some (lane_distributions :: blocks) =>
                          Ok (mkSnapshot (snap_time snapshot) (snap_vehicles snapshot)
                                (snap_vehicle_counts snapshot) (Some lane_distributions),
                              mkTask (fcd_parser t) (Some blocks) Pending)
                      end in
                    match step with
                    | Raise e => fail i t e st
                    | Ok (snapshot, t) =>
                        if send_ok then send (SnapshotMsg snapshot) (set_task i t st)
                        else set_task i (mkTask (fcd_parser t) (lane_distr_parser t) Finished) st
                    end
                end
            | None => fail i t TypeError st
            end
          else st
      | _ => st
      end
  | None => st
  end.

(** *** The message loop *)

(** [task.cancel()] on a task that is still scheduled. *)
Definition cancel_task (i : nat) (st : State) : State :=
  match tasks st !! i with
  | Some t =>
      match task_state t with
      | Pending => set_task i (mkTask (fcd_parser t) (lane_distr_parser t) Cancelled) st
      | _ => st
      end
  | None => st
  end.

Definition cleanup_sumo_simulation (simulation_task : option nat) (live : bool)
    (st : State) : State :=
  match simulation_task with
  | Some i =>
      let st := cancel_task i st in
      let st := set_last ∅ ∅ st in
      if live then count_stop_sumo st else st
  | None => st
  end.

(** The body of [if msg['type'] == 'action':] before the state message. *)
Definition action (live : bool) (a : string) (delayLengthMs : option Z) (st : State)
  : Res State :=
  if decide (a = "start") then
    let st := if live then count_start_sumo st else st in
    let st := set_status STATUS_RUNNING st in
    Ok (set_tasks (Some (length (tasks st))) (tasks st ++ [new_task]) st)
  else if decide (a = "pause") then Ok (set_status STATUS_PAUSED st)
  else if decide (a = "resume") then Ok (set_status STATUS_RUNNING st)
  else if decide (a = "cancel") then
    let st := set_status STATUS_OFF st in
    Ok (cleanup_sumo_simulation (task st) live st)
  else if decide (a = "changeDelay") then
    match delayLengthMs with
    | Some d => Ok (set_delay d st)
    | None => Raise (KeyError "delayLengthMs")
    end
  else Raise (Exception "unrecognized action websocket message").

(** One turn of [async for msg in ws].  The second component is the
    exception that leaves the handler, if any; what the turn wrote to the
    globals before raising stays written. *)
Definition on_message (msg : WsMsg) (send_ok : bool) (st : State) : State * option exn :=
  let live := is_live current_scenario in
  match msg with
  | TEXT type a delayLengthMs =>
      match type with
      | None => (st, Some (KeyError "type"))
      | Some type =>
          if decide (type = "action") then
            match a with
            | None => (st, Some (KeyError "action"))
            | Some a =>
                match action live a delayLengthMs st with
                | Raise e => (st, Some e)
                | Ok st =>
                    if send_ok then (send (get_state_websocket_message st) st, None)
                    else (st, Some ConnectionResetError)
                end
            end
          else (st, Some (Exception "unrecognized websocket message"))
      end
  | ERROR => (cleanup_sumo_simulation (task st) live (set_status STATUS_OFF st), None)
  | OTHER => (st, None)
  | CLOSE => (st, None)
  end.

Definition step (ev : event) (st : State) : State :=
  match ev with
  | Tick i send_ok => tick i send_ok st
  | Recv msg send_ok =>
      match handler st with
      | Serving =>
          match on_message msg send_ok st with
          | (st, Some e) => set_handler (Raised e) st
          | (st, None) =>
              match msg with
              | CLOSE => set_handler Returned st
              | _ => st
              end
          end
      | _ => st
      end
  end.

Definition run (evs : list event) (st : State) : State :=
  foldl (fun st ev => step ev st) st evs.

(** Observations used by the statements below. *)
Definition is_pending (t : Task) : bool :=
  bool_decide (task_state t = Pending).

Definition live_tasks (st : State) : nat :=
  length (filter (fun t => is_pending t = true) (tasks st)).

Definition is_snapshot (m : OutMsg) : bool :=
  match m with
  | SnapshotMsg _ => true
  | StateMsg _ _ _ => false
  end.

Definition snapshots (st : State) : nat :=
  length (filter (fun m => is_snapshot m = true) (sent st)).

End Controller.

(** ** Further code of server.py *)

(** [sep.join(words)] for a one-character separator *)
Fixpoint join (sep : ascii) (words : list string) : string :=
  match words with
  | [] => ""
  | [w] => w
  | w :: ws => w +:+ String sep (join sep ws)
  end.

(** Occurrences of a character in a string. *)
Fixpoint count_char (c : ascii) (s : string) : nat :=
  match s with
  | EmptyString => 0
  | String a s' => (if decide (a = c) then 1 else 0) + count_char c s'
  end.

(** *** [scenario_to_response_body] *)

Record ScenarioBody : Type := mkScenarioBody {
  displayName : string;
  kebabCase : string;
}.

Definition scenario_to_response_body (scenario : Scenario) : ScenarioBody :=
  mkScenarioBody (name scenario) (to_kebab_case (name scenario)).

(** *** [get_default_scenario_name]

    With no default the function evaluates [scenarios.keys()[0]]; a dict
    view cannot be subscripted, so that line raises [TypeError]. *)
Definition get_default_scenario_name (scenarios : gmap string Scenario) : Res string :=
  let defaults :=
    (filter (fun ks => is_default ks.2 = true) (map_to_list scenarios)).*1 in
  match defaults with
  | _ :: _ :: _ => Raise ValueError
  | [] => Raise TypeError
  | [k] => Ok k
  end.

(** *** [parse_fcd]

    The generator consumes the (event, element) pairs of [ET.iterparse];
    the model returns what it yields and the exception that ends it, if
    any. *)
Record Elem : Type := mkElem {
  tag : string;
  attrib : gmap string string;
}.

Fixpoint parse_fcd_from (events : list (string * Elem)) (timestep : list Elem)
  : list (string * list (gmap string string)) * option exn :=
  match events with
  | [] => ([], None)
  | (event, elem) :: rest =>
      if bool_decide (tag elem = "vehicle" ∧ event = "end") then
        parse_fcd_from rest (timestep ++ [elem])
      else if bool_decide (tag elem = "timestep" ∧ event = "end") then
        match attrib elem !! "time" with
        | Some time =>
            let '(yielded, e) := parse_fcd_from rest [] in
            ((time, attrib <$> timestep) :: yielded, e)
        | None => ([], Some (KeyError "time"))
        end
      else parse_fcd_from rest timestep
  end.

Definition parse_fcd (events : list (string * Elem))
  : list (string * list (gmap string string)) * option exn :=
  parse_fcd_from events [].

(** *** [parse_lane_distr] *)

(** [s.replace(old, new)] and [s.replace(old, new, count)] for a non-empty
    [old]: matches are taken left to right and do not overlap.  [skip]
    counts the characters of a match still to be passed over. *)
Fixpoint replace_from (old new : string) (skip : nat) (count : option nat) (s : string)
  : string :=
  match s with
  | EmptyString => EmptyString
  | String c s' =>
      match skip with
      | S k => replace_from old new k count s'
      | O =>
          if bool_decide (count ≠ Some O) && String.prefix old s then
            new +:+ replace_from old new (String.length old - 1) (pred <$> count) s'
          else String c (replace_from old new O count s')
      end
  end.

Definition replace_str (old new : string) (count : option nat) (s : string) : string :=
  replace_from old new O count s.

(** An entry of a yielded block: the text of the line that opened the
    block, or a parsed row. *)
Inductive LaneItem (V : Type) : Type :=
  | Header (s : string)
  | Row (v : V).
Arguments Header {V} s.
Arguments Row {V} v.

(** [lines.pop(0)] on an empty file, or a row [ast.literal_eval] refuses. *)
Inductive LaneError : Type :=
  | IndexError_pop
  | LiteralError.

Section LaneDistr.
Context {V : Type}.
Variable literal_eval : string → option V.

Fixpoint parse_lane_distr_loop (lines : list string) (data : list (LaneItem V))
  : list (list (LaneItem V)) * option LaneError :=
  match lines with
  | [] => ([], None)
  | line :: rest =>
      if String.prefix "]]" line then ([], None)
      else if negb (String.prefix "], [" line) then
        match literal_eval (replace_str ", " "" (Some 1%nat) line) with
        | Some v => parse_lane_distr_loop rest (data ++ [Row v])
        | None => ([], Some LiteralError)
        end
      else
        let '(yielded, e) :=
          parse_lane_distr_loop rest [Header (replace_str "], [" "" None line)] in
        (data :: yielded, e)
  end.

Definition parse_lane_distr (lines : list string)
  : list (list (LaneItem V)) * option LaneError :=
  match lines with
  | [] => ([], Some IndexError_pop)
  | line :: lines =>
      parse_lane_distr_loop lines [Header (replace_str "[[" "" None line)]
  end.

End LaneDistr.

(** *** [parse_config_file] *)

(** [re.split(r'[ ,]+', s)]: the pieces between maximal runs of spaces
    and commas; a run at either end leaves an empty piece there. *)
Definition is_sep (c : ascii) : bool :=
  bool_decide (c = " "%char ∨ c = ","%char).

Fixpoint re_split_from (in_run : bool) (s : string) : list string :=
  match s with
  | EmptyString => [EmptyString]
  | String c s' =>
      if is_sep c then
        if in_run then re_split_from true s' else EmptyString :: re_split_from true s'
      else match re_split_from false s' with
           | w :: ws => String c w :: ws
           | [] => [String c EmptyString]
           end
  end.

Definition re_split (s : string) : list string := re_split_from false s.

(** The configuration as xmltodict delivers it: every element is the dict
    of its attributes.  [additional-files] is absent, one element, or a
    list of elements. *)
Inductive Additionals : Type :=
  | NoAdditionals
  | OneTag (d : gmap string string)
  | ManyTags (l : list (gmap string string)).

Record InputConfig : Type := mkInputConfig {
  net_file_tag : option (gmap string string);
  additional_files_tag : Additionals;
}.

Record GuiOnly : Type := mkGuiOnly {
  gui_settings_file_tag : option (gmap string string);
}.

Record SumoConfig : Type := mkSumoConfig {
  input : option InputConfig;
  gui_only : option GuiOnly;
}.

Section ConfigFile.
(** [os.path.join] *)
Variable path_join : string → string → string.

(** The two nested loops over the elements and over the names in each
    [value]. *)
Fixpoint additional_paths (config_dir : string) (additionals : list (gmap string string))
  : Res (list string) :=
  match additionals with
  | [] => Ok []
  | additional :: rest =>
      value ← getitem additional "value";
      files ← additional_paths config_dir rest;
      Ok ((path_join config_dir <$> re_split value) ++ files)%list
  end.

Definition parse_config_file (config_dir : string) (config : SumoConfig)
  : Res (string * option (list string) * option string) :=
  input_config ← match input config with
                  | Some i => Ok i
                  | None => Raise (KeyError "input")
                  end;
  net_tag ← match net_file_tag input_config with
             | Some t => Ok t
             | None => Raise (KeyError "net-file")
             end;
  net_value ← getitem net_tag "value";
  let net_file := path_join config_dir net_value in
  additional_files ←
    match additional_files_tag input_config with
    | NoAdditionals => Ok None
    | OneTag d =>
        if bool_decide (d = ∅) then Ok None
        else fs ← additional_paths config_dir [d]; Ok (Some fs)
    | ManyTags [] => Ok None
    | ManyTags l => fs ← additional_paths config_dir l; Ok (Some fs)
    end;
  settings_file ←
    match gui_only config with
    | Some g =>
        match gui_settings_file_tag g with
        | Some t => v ← getitem t "value"; Ok (Some (path_join config_dir v))
        | None => Ok None
        end
    | None => Ok None
    end;
  Ok (net_file, additional_files, settings_file).

End ConfigFile.

(** ** The conversion scripts (distribution-parser/) *)

(** *** distributions-parser.py

    [data[lane][step]] is a list of positions and [str] its rendering.
    The model returns the lines written to the output file, each without
    its newline, and whether an [IndexError] ended the run.  The sizes are
    taken before the file is opened, so an error there writes nothing. *)
Section Distributions.
Context {P : Type}.
Variable str : list P → string.

Definition cell (data : list (list (list P))) (lane step : nat) : option (list P) :=
  data !! lane ≫= fun row => row !! step.

(** [for lane in range(n_lanes): file.write(str(data[lane][step]))] *)
Fixpoint write_lanes (data : list (list (list P))) (step : nat) (lanes : list nat)
  : list string * bool :=
  match lanes with
  | [] => ([], false)
  | lane :: rest =>
      match cell data lane step with
      | None => ([], true)
      | Some x =>
          let '(written, failed) := write_lanes data step rest in
          (str x :: written, failed)
      end
  end.

(** [for step in range(n_timesteps): ...; file.write('-\n')] *)
Fixpoint write_steps (data : list (list (list P))) (n_lanes : nat) (steps : list nat)
  : list string * bool :=
  match steps with
  | [] => ([], false)
  | step :: rest =>
      let '(written, failed) := write_lanes data step (seq 0 n_lanes) in
      if failed then (written, true)
      else
        let '(written', failed') := write_steps data n_lanes rest in
        ((written ++ ["-"] ++ written')%list, failed')
  end.

Definition distributions_parser (data : list (list (list P))) : list string * bool :=
  match data with
  | [] => ([], true)
  | [] :: _ => ([], true)
  | (_ :: _) as lane0 :: _ =>
      write_steps data (length data) (seq 0 (length lane0))
  end.

End Distributions.

(** *** indices-parser.py

    [{index: ix for ix, index in index_to_id.items()}], over the items in
    the order of the dict. *)
Definition invert_items {K V} `{Countable V} (items : list (K * V)) : gmap V K :=
  foldl (fun id_to_index kv => <[kv.2 := kv.1]> id_to_index) ∅ items.

(** ** A reference implementation of the float interface

    Exact decimals [m / 10^scale], kept normalised, which read the plain
    literals of a trajectory log ([12.50], [-3], [.5]).  It is used to run
    the model on concrete records. *)

Module Decimal.

Definition digit (c : ascii) : option Z :=
  let n := nat_of_ascii c in
  if (48 <=? n)%nat && (n <=? 57)%nat then Some (Z.of_nat (n - 48)) else None.

Fixpoint digits (s : string) (acc : Z) : option Z :=
  match s with
  | EmptyString => Some acc
  | String c s' =>
      match digit c with
      | Some d => digits s' (10 * acc + d)%Z
      | None => None
      end
  end.

Fixpoint normalise (scale : nat) (m : Z) : Z * nat :=
  match scale with
  | O => (m, O)
  | S k => if (m mod 10 =? 0)%Z then normalise k (m / 10)%Z else (m, scale)
  end.

Definition unsigned (s : string) : option (Z * nat) :=
  match split "." s with
  | [a] => if decide (a = "") then None else m ← digits a 0; Some (m, O)
  | [a; b] =>
      if decide (a = "" ∧ b = "") then None
      else m ← digits (a +:+ b) 0; Some (normalise (String.length b) m)
  | _ => None
  end.

Definition parse (s : string) : option (Z * nat) :=
  match strip s with
  | String "-" r => '(m, k) ← unsigned r; Some ((- m)%Z, k)
  | String "+" r => unsigned r
  | r => unsigned r
  end.

Fixpoint pad (k : nat) (s : string) : string :=
  match k with
  | O => s
  | S k' => if (String.length s <? k)%nat then pad k' ("0" +:+ s) else s
  end.

(** [str(f * 1000)] *)
Definition show_times_1000 (f : Z * nat) : string :=
  let '(m, k) := f in
  let '(m, k) := if (k <=? 3)%nat then ((m * 10 ^ Z.of_nat (3 - k))%Z, O)
                 else (m, (k - 3)%nat) in
  let sign := if (m <? 0)%Z then "-" else "" in
  let whole := pretty (Z.abs m / 10 ^ Z.of_nat k)%Z in
  let frac := match k with
              | O => "0"
              | _ => pad k (pretty (Z.abs m mod 10 ^ Z.of_nat k)%Z)
              end in
  sign +:+ whole +:+ "." +:+ frac.

#[local] Instance decimal : PyFloatType := (Z * nat)%type.

#[local] Instance decimal_float : PyFloat := {|
  pyfloat_eq_dec := (decide_rel (=) : EqDecision (Z * nat));
  float := parse;
  lit_4_5 := (45%Z, 1%nat);
  lit_1_8 := (18%Z, 1%nat);
  str_times_1000 := show_times_1000;
|}.

End Decimal.

(** ** Vocabulary of the statements *)

(** The label the function stores for a source type. *)
Definition canonical_type (ty : string) : string :=
  if decide (ty = "DEFAULT_VEHTYPE") then "car" else ty.

(** Every key of the registry is the [name] of the scenario it holds. *)
Definition well_keyed (scenarios : gmap string Scenario) : Prop :=
  ∀ k s, scenarios !! k = Some s → name s = k.

(** An event that can make the status RUNNING: a start or resume action. *)
Definition starts_or_resumes (ev : event) : bool :=
  match ev with
  | Recv (TEXT (Some type) (Some a) _) _ =>
      bool_decide (type = "action" ∧ (a = "start" ∨ a = "resume"))
  | _ => false
  end.

(** A timestep of the log that [read_next_step] turns into a snapshot. *)
Definition readable `{PyFloat} (ts : string * list (gmap string string)) : Prop :=
  is_ok (read_next_step ts.1 ts.2 ∅) = true.

(** A record with an id and the five fields the construction subscripts,
    of which [x], [y] and [speed] are numbers. *)
Definition well_formed_vehicle `{PyFloat} (v : gmap string string) : Prop :=
  is_Some (v !! "id") ∧ is_Some (v !! "type") ∧ is_Some (v !! "angle")
  ∧ (∃ x fx, v !! "x" = Some x ∧ float x = Some fx)
  ∧ (∃ y fy, v !! "y" = Some y ∧ float y = Some fy)
  ∧ (∃ s fs, v !! "speed" = Some s ∧ float s = Some fs).

(** ** Sample data *)

(** A record as SUMO writes it, without class or colour. *)
Definition sample_vehicle : gmap string string :=
  list_to_map [ ("id", "veh0"); ("x", "12.50"); ("y", "7.25"); ("angle", "90.00");
                ("type", "DEFAULT_VEHTYPE"); ("speed", "13.89"); ("pos", "5.10");
                ("lane", "e1_0"); ("slope", "0.00") ].

(** A file system in which every configuration is readable, and a
    scenarios file with one recorded and one live scenario. *)
Definition sample_join_dir (p : string) : string := "scenarios/" +:+ p.

Definition sample_read_config (j : ScenarioJson) : Res ConfigFiles :=
  Ok (mkConfigFiles "<net/>" None None "{}" None).

Definition sample_scenarios : list ScenarioJson :=
  [ mkScenarioJson "Grid World" "grid/grid.sumocfg" (Some true) (Some "grid/fcd.xml") None None;
    mkScenarioJson "ring_road" "ring/ring.sumocfg" None None None None ].

(** A recorded scenario whose trajectory log holds three timesteps, and
    the session events used below. *)
Definition sample_recorded : Scenario :=
  mkScenario "scenarios/grid/grid.sumocfg" "Grid World" "grid-world" true
    (mkConfigFiles "<net/>" None None "{}" None) (Some "scenarios/grid/fcd.xml") None.

Definition sample_fcd_log : list (string * list (gmap string string)) :=
  [ ("0.00", [sample_vehicle]);
    ("1.00", [<["x" := "26.39"]> sample_vehicle]);
    ("2.00", []) ].

Definition do_action (a : string) : event :=
  Recv (TEXT (Some "action") (Some a) None) true.

(** A field of a record that is present and reads as a number. *)
Definition numeric_field `{PyFloat} (v : gmap string string) (k : string) : Prop :=
  ∃ s f, v !! k = Some s ∧ float s = Some f.

(** The keys every entity has. *)
Definition entity_keys : gset string :=
  list_to_set ["x"; "y"; "z"; "speed"; "angle"; "type"; "vClass"; "length"; "width";
               "signals"].


(** A string that is empty or starts with a character that is no space. *)
Definition head_ok (s : string) : Prop :=
  match s with
  | EmptyString => True
  | String c _ => is_space c = false
  end.


(** The end of a [<vehicle>] element, and of a [<timestep>] element, in
    the stream of [ET.iterparse]. *)
Definition is_vehicle_end (ev : string * Elem) : bool :=
  bool_decide (tag ev.2 = "vehicle" ∧ ev.1 = "end").

Definition is_timestep_end (ev : string * Elem) : bool :=
  bool_decide (tag ev.2 = "timestep" ∧ ev.1 = "end").

(** The attribute dicts of the vehicle elements that end in a stretch of
    the stream. *)
Definition vehicles_of (events : list (string * Elem)) : list (gmap string string) :=
  (fun ev => attrib ev.2) <$> filter (fun ev => is_vehicle_end ev = true) events.


(** The lines [parse_lane_distr] tells apart, and a row that
    [ast.literal_eval] accepts once its leading comma is removed. *)
Definition is_terminator (line : string) : bool := String.prefix "]]" line.

Definition is_separator (line : string) : bool := String.prefix "], [" line.

Definition row_ok {V} (literal_eval : string → option V) (line : string) : Prop :=
  is_Some (literal_eval (replace_str ", " "" (Some 1%nat) line)).

(** Nothing, or lines the first of which is a terminator. *)
Definition ends_here (lines : list string) : Prop :=
  match lines with
  | [] => True
  | line :: _ => is_terminator line = true
  end.


(** The parse events of a small trajectory log: two timesteps, a person
    among the vehicles, and a vehicle after the last timestep. *)
Definition sample_events : list (string * Elem) :=
  [ ("end", mkElem "vehicle" {[ "id" := "veh0" ]});
    ("end", mkElem "person" {[ "id" := "ped0" ]});
    ("end", mkElem "timestep" {[ "time" := "0.00" ]});
    ("end", mkElem "vehicle" {[ "id" := "veh1" ]});
    ("end", mkElem "timestep" {[ "time" := "1.00" ]});
    ("end", mkElem "vehicle" {[ "id" := "veh2" ]});
    ("end", mkElem "fcd-export" ∅) ].

(** A lane-distribution file of three blocks, and a reader of rows that
    accepts every row. *)
Definition sample_lane_lines : list string :=
  [ "[[[0, 1]"; ", [1, 2]"; "], [[5, 6]"; ", [7, 8]"; "], [[9, 9]"; ", [7, 8]"; "]]" ].

Definition sample_literal_eval (s : string) : option string := Some s.


(** [sep.join(words)] for a separator of any length. *)
Fixpoint concat_with (sep : string) (words : list string) : string :=
  match words with
  | [] => ""
  | [w] => w
  | w :: ws => w +:+ sep +:+ concat_with sep ws
  end.

Fixpoint all_chars (p : ascii → bool) (s : string) : bool :=
  match s with
  | EmptyString => true
  | String c s' => p c && all_chars p s'
  end.

(** A file name: not empty, without space or comma.  A separator: a
    non-empty run of spaces and commas. *)
Definition file_name (w : string) : Prop :=
  w ≠ "" ∧ all_chars (fun c => negb (is_sep c)) w = true.

Definition separator_run (p : string) : Prop :=
  p ≠ "" ∧ all_chars is_sep p = true.

(** Prefixing the first piece of a split. *)
Definition cons_head (w : string) (pieces : list string) : list string :=
  match pieces with
  | x :: xs => (w +:+ x) :: xs
  | [] => [w]
  end.


(** [os.path.join] for a relative second part, as used in the examples. *)
Definition sample_path_join (a b : string) : string := a +:+ "/" +:+ b.

(** The rendered entries of one timestep, lane by lane. *)
Definition column {P} (str : list P → string) (data : list (list (list P))) (step : nat)
  : list string :=
  omap (fun row => str <$> row !! step) data.

(** Lane data of two lanes and three timesteps, rendered by the number
    of positions. *)
Definition sample_distributions : list (list (list nat)) :=
  [ [[1; 0]; [0; 1]; [1; 1]];
    [[0; 0]; [1; 0]; [0; 1]] ].

Definition sample_str (x : list nat) : string := pretty (length x).


(** An iteration of a tick loop; a start action. *)
Definition is_tick (ev : event) : bool :=
  match ev with
  | Tick _ _ => true
  | Recv _ _ => false
  end.

Definition is_start (ev : event) : bool :=
  match ev with
  | Recv (TEXT (Some type) (Some a) _) _ => bool_decide (type = "action" ∧ a = "start")
  | _ => false
  end.

(** The state messages among the frames sent. *)
Definition state_messages `{PyFloat} (st : State) : list OutMsg :=
  filter (fun m => is_snapshot m = false) (sent st).


(** A live scenario, which has no trajectory log, and a recorded one
    that names a lane-distribution log. *)
Definition sample_live : Scenario :=
  mkScenario "scenarios/ring/ring.sumocfg" "ring_road" "ring-road" false
    (mkConfigFiles "<net/>" None None "{}" None) None None.

Definition sample_lanes : Scenario :=
  mkScenario "scenarios/grid/grid.sumocfg" "Grid World" "grid-world" true
    (mkConfigFiles "<net/>" None None "{}" None) (Some "scenarios/grid/fcd.xml")
    (Some "scenarios/grid/lanes.txt").


(** * Properties *)

(** ** Delta engine *)

Section DeltaFacts.
Context `{PyFloat}.
Implicit Types previous current : gmap string (gmap string PyVal).

(** What the delta holds at each id. *)
Lemma diff_dicts_lookup previous current (id : string) :
  diff_dicts previous current !! id =
    match current !! id with
    | Some e => if decide (previous !! id = Some e) then None else Some (Payload e)
    | None => match previous !! id with
              | Some _ => Some Tombstone
              | None => None
              end
    end.
Proof.
  unfold diff_dicts. rewrite lookup_union, !lookup_fmap.
  destruct (current !! id) as [e|] eqn:Hc.
  - assert (filter (λ kv : string * gmap string PyVal, current !! kv.1 = None)
              previous !! id = None) as ->.
    { apply map_lookup_filter_None. right. intros x _. simpl. congruence. }
    simpl. case_decide as Hp.
    + rewrite (proj2 (map_lookup_filter_None _ _ _)); [done|].
      right. intros x Hx Hne. simpl in Hne. congruence.
    + rewrite (map_lookup_filter_Some_2 _ _ _ e); [done..|]. simpl. done.
  - rewrite (proj2 (map_lookup_filter_None _ current _)) by (by left). simpl.
    destruct (previous !! id) as [e|] eqn:Hp.
    + rewrite (map_lookup_filter_Some_2 _ _ _ e); [done..|]. simpl. done.
    + rewrite (proj2 (map_lookup_filter_None _ previous _)) by (by left). done.
Qed.

(** C1: an id that [previous] holds and [current] does not is in the
    delta, as a tombstone. *)
Theorem diff_dicts_removed_is_tombstone previous current (id : string) :
  is_Some (previous !! id) →
  current !! id = None →
  diff_dicts previous current !! id = Some Tombstone.
Proof.
  intros [e He] Hc. rewrite diff_dicts_lookup, Hc, He. reflexivity.
Qed.

(** C2: the delta between a mapping and itself is empty. *)
Theorem diff_dicts_same_is_empty (S : gmap string (gmap string PyVal)) :
  diff_dicts S S = ∅.
Proof.
  apply map_eq. intros id. rewrite diff_dicts_lookup, lookup_empty.
  destruct (S !! id); [|done]. by rewrite decide_True.
Qed.

End DeltaFacts.

Section DeltaExamples.
#[local] Existing Instance Decimal.decimal.
#[local] Existing Instance Decimal.decimal_float.

Lemma diff_dicts_removed_is_tombstone_witness :
  let previous : gmap string (gmap string PyVal) :=
    {[ "veh0" := {[ "signals" := VInt 0 ]} ]} in
  is_Some (previous !! "veh0") ∧
  (∅ : gmap string (gmap string PyVal)) !! "veh0" = None ∧
  diff_dicts previous ∅ !! "veh0" = Some Tombstone.
Proof.
  intros previous.
  assert (is_Some (previous !! "veh0")) as Hp by (eexists; reflexivity).
  split; [exact Hp|]. split; [reflexivity|].
  exact (diff_dicts_removed_is_tombstone previous ∅ "veh0" Hp eq_refl).
Defined.

End DeltaExamples.

(** ** Entity construction *)

Section EntityFacts.
Context `{PyFloat}.
Implicit Types vehicle : gmap string string.

Lemma getitem_Some {V} (d : gmap string V) k v : d !! k = Some v → getitem d k = Ok v.
Proof. unfold getitem. by intros ->. Qed.

Lemma getitem_None {V} (d : gmap string V) k : d !! k = None → getitem d k = Raise (KeyError k).
Proof. unfold getitem. by intros ->. Qed.

Lemma float_of_Some s f : float s = Some f → float_of s = Ok f.
Proof. unfold float_of. by intros ->. Qed.

Lemma float_of_None s : float s = None → float_of s = Raise ValueError.
Proof. unfold float_of. by intros ->. Qed.

Lemma parse_color_lookup_ne vehicle k : k ≠ "color" → parse_color vehicle !! k = None.
Proof.
  intros Hk. unfold parse_color. destruct (vehicle !! "color").
  - by rewrite lookup_singleton_ne.
  - apply lookup_empty.
Qed.

Lemma parse_color_retyped vehicle :
  parse_color (<["type" := "car"]> vehicle) = parse_color vehicle.
Proof. unfold parse_color. by rewrite lookup_insert_ne. Qed.

(** The entity built from a record that has the five mandatory fields,
    with [x], [y] and [speed] numeric. *)
Lemma read_fcd_vehicle_ok vehicle ty x y speed angle fx fy fspeed :
  vehicle !! "type" = Some ty →
  vehicle !! "x" = Some x → float x = Some fx →
  vehicle !! "y" = Some y → float y = Some fy →
  vehicle !! "speed" = Some speed → float speed = Some fspeed →
  vehicle !! "angle" = Some angle →
  read_fcd_vehicle vehicle =
    Ok (parse_color vehicle ∪
        (list_to_map
           [ ("x", VFloat fx); ("y", VFloat fy); ("z", VInt 0);
             ("speed", VFloat fspeed); ("angle", VStr angle);
             ("type", VStr (canonical_type ty));
             ("vClass", VStr (default "passenger" (vehicle !! "vClass")));
             ("length", VFloat lit_4_5); ("width", VFloat lit_1_8);
             ("signals", VInt 0) ] : gmap string PyVal)).
Proof.
  intros Hty Hx Hfx Hy Hfy Hs Hfs Ha.
  unfold read_fcd_vehicle, contains.
  rewrite (getitem_Some _ _ _ Hty). cbn [mbind Res_bind].
  set (v := if decide (ty = "DEFAULT_VEHTYPE") then _ else _).
  assert (∀ k, k ≠ "type" → v !! k = vehicle !! k) as Hv.
  { intros k Hk. subst v. case_decide; [by rewrite lookup_insert_ne|done]. }
  assert (v !! "type" = Some (canonical_type ty)) as Hvty.
  { subst v. unfold canonical_type. case_decide; [by rewrite lookup_insert_eq|done]. }
  assert (parse_color v = parse_color vehicle) as ->.
  { unfold parse_color. by rewrite Hv. }
  rewrite <- (Hv "x") in Hx by done. rewrite <- (Hv "y") in Hy by done.
  rewrite <- (Hv "speed") in Hs by done. rewrite <- (Hv "angle") in Ha by done.
  rewrite (getitem_Some _ _ _ Hx), (getitem_Some _ _ _ Hy), (getitem_Some _ _ _ Hs),
    (getitem_Some _ _ _ Ha), (getitem_Some _ _ _ Hvty).
  cbn [mbind Res_bind].
  rewrite (float_of_Some _ _ Hfx), (float_of_Some _ _ Hfy), (float_of_Some _ _ Hfs).
  cbn [mbind Res_bind]. unfold getitem. rewrite (Hv "vClass") by done.
  destruct (vehicle !! "vClass") as [c|] eqn:Hc.
  - rewrite bool_decide_eq_true_2 by eauto. reflexivity.
  - rewrite bool_decide_eq_false_2 by (intros [? ?]; discriminate). reflexivity.
Qed.

Lemma entity_lookup_ne vehicle (base : gmap string PyVal) k :
  k ≠ "color" → (parse_color vehicle ∪ base) !! k = base !! k.
Proof.
  intros Hk. rewrite lookup_union, (parse_color_lookup_ne _ _ Hk).
  by destruct (base !! k).
Qed.

(** C9: construction rewrites the default vehicle type to "car", gives a
    record without a class the class "passenger", and gives a record
    without a colour no "color" key. *)
Theorem read_fcd_vehicle_normalizes vehicle ty x y speed angle fx fy fspeed :
  vehicle !! "type" = Some ty →
  vehicle !! "x" = Some x → float x = Some fx →
  vehicle !! "y" = Some y → float y = Some fy →
  vehicle !! "speed" = Some speed → float speed = Some fspeed →
  vehicle !! "angle" = Some angle →
  ∃ e : gmap string PyVal,
    read_fcd_vehicle vehicle = Ok e
    ∧ (ty = "DEFAULT_VEHTYPE" → e !! "type" = Some (VStr "car"))
    ∧ (ty ≠ "DEFAULT_VEHTYPE" → e !! "type" = Some (VStr ty))
    ∧ (vehicle !! "vClass" = None → e !! "vClass" = Some (VStr "passenger"))
    ∧ (vehicle !! "color" = None → e !! "color" = None).
Proof.
  intros Hty Hx Hfx Hy Hfy Hs Hfs Ha. eexists. split.
  { eapply read_fcd_vehicle_ok; eassumption. }
  repeat split.
  - intros Hd. rewrite entity_lookup_ne by done.
    unfold canonical_type. rewrite decide_True by done. reflexivity.
  - intros Hd. rewrite entity_lookup_ne by done.
    unfold canonical_type. rewrite decide_False by done. reflexivity.
  - intros Hc. rewrite entity_lookup_ne by done. rewrite Hc. reflexivity.
  - intros Hc. rewrite lookup_union. unfold parse_color. rewrite Hc.
    rewrite lookup_empty. reflexivity.
Qed.

(** The three fields read through [float] reject text that is not a
    number. *)
Lemma read_fcd_vehicle_rejects_x vehicle ty x :
  vehicle !! "type" = Some ty → vehicle !! "x" = Some x → float x = None →
  read_fcd_vehicle vehicle = Raise ValueError.
Proof.
  intros Hty Hx Hfx. unfold read_fcd_vehicle.
  rewrite (getitem_Some _ _ _ Hty). cbn [mbind Res_bind].
  set (v := if decide (ty = "DEFAULT_VEHTYPE") then _ else _).
  assert (v !! "x" = Some x) as Hv.
  { subst v. case_decide; [by rewrite lookup_insert_ne|done]. }
  rewrite (getitem_Some _ _ _ Hv). cbn [mbind Res_bind].
  rewrite (float_of_None _ Hfx). reflexivity.
Qed.

Lemma read_fcd_vehicle_rejects_y vehicle ty x fx y :
  vehicle !! "type" = Some ty → vehicle !! "x" = Some x → float x = Some fx →
  vehicle !! "y" = Some y → float y = None →
  read_fcd_vehicle vehicle = Raise ValueError.
Proof.
  intros Hty Hx Hfx Hy Hfy. unfold read_fcd_vehicle.
  rewrite (getitem_Some _ _ _ Hty). cbn [mbind Res_bind].
  set (v := if decide (ty = "DEFAULT_VEHTYPE") then _ else _).
  assert (∀ k, k ≠ "type" → v !! k = vehicle !! k) as Hv.
  { intros k Hk. subst v. case_decide; [by rewrite lookup_insert_ne|done]. }
  rewrite <- (Hv "x") in Hx by done. rewrite <- (Hv "y") in Hy by done.
  rewrite (getitem_Some _ _ _ Hx), (getitem_Some _ _ _ Hy). cbn [mbind Res_bind].
  rewrite (float_of_Some _ _ Hfx), (float_of_None _ Hfy). reflexivity.
Qed.

Lemma read_fcd_vehicle_rejects_speed vehicle ty x fx y fy speed :
  vehicle !! "type" = Some ty → vehicle !! "x" = Some x → float x = Some fx →
  vehicle !! "y" = Some y → float y = Some fy →
  vehicle !! "speed" = Some speed → float speed = None →
  read_fcd_vehicle vehicle = Raise ValueError.
Proof.
  intros Hty Hx Hfx Hy Hfy Hs Hfs. unfold read_fcd_vehicle.
  rewrite (getitem_Some _ _ _ Hty). cbn [mbind Res_bind].
  set (v := if decide (ty = "DEFAULT_VEHTYPE") then _ else _).
  assert (∀ k, k ≠ "type" → v !! k = vehicle !! k) as Hv.
  { intros k Hk. subst v. case_decide; [by rewrite lookup_insert_ne|done]. }
  rewrite <- (Hv "x") in Hx by done. rewrite <- (Hv "y") in Hy by done.
  rewrite <- (Hv "speed") in Hs by done.
  rewrite (getitem_Some _ _ _ Hx), (getitem_Some _ _ _ Hy), (getitem_Some _ _ _ Hs).
  cbn [mbind Res_bind].
  rewrite (float_of_Some _ _ Hfx), (float_of_Some _ _ Hfy), (float_of_None _ Hfs).
  reflexivity.
Qed.

(** C8, the behaviour of the code where the claim fails: [angle] is not
    read through [float].  A record whose angle is not a number is
    accepted and the entity carries the text as it stands. *)
Theorem read_fcd_vehicle_angle_not_parsed vehicle ty x y speed angle fx fy fspeed :
  vehicle !! "type" = Some ty →
  vehicle !! "x" = Some x → float x = Some fx →
  vehicle !! "y" = Some y → float y = Some fy →
  vehicle !! "speed" = Some speed → float speed = Some fspeed →
  vehicle !! "angle" = Some angle → float angle = None →
  ∃ e : gmap string PyVal,
    read_fcd_vehicle vehicle = Ok e ∧ e !! "angle" = Some (VStr angle).
Proof.
  intros Hty Hx Hfx Hy Hfy Hs Hfs Ha _. eexists. split.
  { eapply read_fcd_vehicle_ok; eassumption. }
  rewrite entity_lookup_ne by done. reflexivity.
Qed.

(** A log of well-formed records is readable. *)
Lemma read_fcd_vehicle_well_formed vehicle :
  well_formed_vehicle vehicle →
  ∃ e c, read_fcd_vehicle vehicle = Ok e ∧ e !! "vClass" = Some (VStr c).
Proof.
  intros (_ & [ty Hty] & [a Ha] & (x & fx & Hx & Hfx) & (y & fy & Hy & Hfy)
          & (sp & fs & Hs & Hfs)).
  eexists _, _. split.
  - eapply read_fcd_vehicle_ok; eassumption.
  - rewrite entity_lookup_ne by done. reflexivity.
Qed.

Lemma vehicles_by_id_ok (vehicles : list (gmap string string)) :
  Forall well_formed_vehicle vehicles →
  ∀ acc : gmap string (gmap string PyVal),
    map_Forall (fun _ e => ∃ c, e !! "vClass" = Some (VStr c)) acc →
    ∃ m, vehicles_by_id vehicles acc = Ok m
         ∧ map_Forall (fun _ e => ∃ c, e !! "vClass" = Some (VStr c)) m.
Proof.
  induction 1 as [|v vehicles Hv _ IH]; intros acc Hacc; simpl; [eauto|].
  destruct (read_fcd_vehicle_well_formed v Hv) as (e & c & He & Hc).
  destruct Hv as ([id Hid] & _). rewrite (getitem_Some _ _ _ Hid), He.
  cbn [mbind Res_bind]. apply IH. apply map_Forall_insert_2; eauto.
Qed.

Lemma mapM_vClass_of_ok (l : list (gmap string PyVal)) :
  Forall (fun e => ∃ c, e !! "vClass" = Some (VStr c)) l →
  ∃ cs, mapM vClass_of l = Ok cs.
Proof.
  induction 1 as [|e l [c Hc] _ [cs IH]]; [by eexists|].
  change (mapM vClass_of (e :: l))
    with (y ← vClass_of e; k ← mapM vClass_of l; mret (y :: k)).
  assert (vClass_of e = Ok c) as ->.
  { unfold vClass_of, getitem. by rewrite Hc. }
  cbn [mbind Res_bind]. rewrite IH. cbn [mbind Res_bind]. by eexists.
Qed.

Lemma timestep_readable (timestep : string) (vehicles : list (gmap string string)) f :
  float timestep = Some f →
  Forall well_formed_vehicle vehicles →
  readable (timestep, vehicles).
Proof.
  intros Hf Hall. unfold readable, read_next_step. simpl.
  destruct (vehicles_by_id_ok vehicles Hall ∅) as (m & -> & Hm).
  { apply map_Forall_empty. }
  cbn [mbind Res_bind].
  destruct (mapM_vClass_of_ok (map_to_list m).*2) as [cs ->].
  { apply Forall_forall. intros e He.
    apply list_elem_of_fmap in He as ([k e'] & -> & Hk).
    apply elem_of_map_to_list in Hk. by apply (Hm k). }
  cbn [mbind Res_bind]. rewrite (float_of_Some _ _ Hf). reflexivity.
Qed.

End EntityFacts.

Section EntityExamples.
#[local] Existing Instance Decimal.decimal.
#[local] Existing Instance Decimal.decimal_float.

Lemma read_fcd_vehicle_normalizes_witness :
  ∃ e : gmap string PyVal,
    read_fcd_vehicle sample_vehicle = Ok e
    ∧ ("DEFAULT_VEHTYPE" = "DEFAULT_VEHTYPE" → e !! "type" = Some (VStr "car"))
    ∧ ("DEFAULT_VEHTYPE" ≠ "DEFAULT_VEHTYPE" → e !! "type" = Some (VStr "DEFAULT_VEHTYPE"))
    ∧ (sample_vehicle !! "vClass" = None → e !! "vClass" = Some (VStr "passenger"))
    ∧ (sample_vehicle !! "color" = None → e !! "color" = None).
Proof.
  apply (read_fcd_vehicle_normalizes (H0 := Decimal.decimal_float) sample_vehicle "DEFAULT_VEHTYPE"
           "12.50" "7.25" "13.89" "90.00" (125%Z, 1) (725%Z, 2) (1389%Z, 2));
    vm_compute; reflexivity.
Defined.

(** The same record with an angle that is no number. *)
Lemma read_fcd_vehicle_angle_not_parsed_witness :
  float "north" = None ∧
  ∃ e : gmap string PyVal,
    read_fcd_vehicle (<["angle" := "north"]> sample_vehicle) = Ok e
    ∧ e !! "angle" = Some (VStr "north").
Proof.
  split; [vm_compute; reflexivity|].
  apply (read_fcd_vehicle_angle_not_parsed (H0 := Decimal.decimal_float) (<["angle" := "north"]> sample_vehicle)
           "DEFAULT_VEHTYPE" "12.50" "7.25" "13.89" "north"
           (125%Z, 1) (725%Z, 2) (1389%Z, 2));
    vm_compute; reflexivity.
Defined.

End EntityExamples.

(** ** Scenario registry *)

Lemma is_ok_true {A} (r : Res A) : is_ok r = true → ∃ a, r = Ok a.
Proof. destruct r; [eauto|discriminate]. Qed.

Section RegistryFacts.
Variable join_dir : string → string.
Variable read_config : ScenarioJson → Res ConfigFiles.
Implicit Types scenarios : gmap string Scenario.

(** Python compares [len(names)] with [len(set(names))]; the two differ
    exactly when a name occurs twice. *)
Lemma size_list_to_set_le (l : list string) :
  (size (list_to_set l : gset string) ≤ length l)%nat.
Proof.
  induction l as [|x l IH].
  - rewrite list_to_set_nil, size_empty. done.
  - rewrite list_to_set_cons, size_union_alt, size_singleton. cbn [length].
    assert (size (list_to_set l ∖ {[x]} : gset string) ≤ size (list_to_set l : gset string))%nat.
    { apply subseteq_size, subseteq_difference_l. done. }
    lia.
Qed.

Lemma length_size_NoDup (l : list string) :
  length l = size (list_to_set l : gset string) ↔ NoDup l.
Proof.
  split; [|intros Hnd; by rewrite size_list_to_set].
  induction l as [|x l IH]; intros Hlen; [constructor|].
  rewrite list_to_set_cons in Hlen. cbn [length] in Hlen.
  destruct (decide (x ∈ l)) as [Hin|Hnin].
  - exfalso.
    assert (({[x]} ∪ list_to_set l : gset string) = list_to_set l) as Heq.
    { apply subseteq_union_1_L, singleton_subseteq_l. by apply elem_of_list_to_set. }
    rewrite Heq in Hlen. pose proof (size_list_to_set_le l). lia.
  - rewrite size_union, size_singleton in Hlen
      by (apply disjoint_singleton_l; by rewrite elem_of_list_to_set).
    constructor; [done|]. apply IH. lia.
Qed.

Lemma well_keyed_empty : well_keyed ∅.
Proof. intros k s. by rewrite lookup_empty. Qed.

Lemma well_keyed_singleton (s : Scenario) : well_keyed {[ name s := s ]}.
Proof.
  intros k s'. rewrite lookup_singleton. case_decide; [|done].
  intros [= <-]. done.
Qed.

Lemma from_config_json_name j s :
  from_config_json join_dir read_config j = Ok s → name s = to_kebab_case (j_name j).
Proof.
  unfold from_config_json.
  destruct (expand_path join_dir (Some (j_config_file j)));
    cbn [mbind Res_bind]; [|discriminate].
  destruct (read_config j); cbn [mbind Res_bind]; [|discriminate].
  by intros [= <-].
Qed.

Lemma add_scenarios_ok updates scenarios next :
  add_scenarios join_dir read_config updates scenarios = Ok next →
  well_keyed scenarios →
  well_keyed next
  ∧ (∀ k, is_Some (scenarios !! k) → is_Some (next !! k))
  ∧ (∀ j, j ∈ updates → is_Some (next !! to_kebab_case (j_name j))).
Proof.
  revert scenarios. induction updates as [|j updates IH]; intros scenarios; simpl.
  - intros [= <-] Hwk. split; [done|]. split; [done|]. intros j Hj. by apply elem_of_nil in Hj.
  - destruct (from_config_json join_dir read_config j) as [s|e] eqn:Hs;
      cbn [mbind Res_bind]; [|discriminate].
    intros Hadd Hwk. pose proof (from_config_json_name _ _ Hs) as Hname.
    destruct (IH _ Hadd) as (Hwk' & Hkeep & Hnew).
    { intros k s'. rewrite lookup_insert. case_decide as Hk.
      - intros [= <-]. done.
      - apply Hwk. }
    split; [done|]. split.
    + intros k Hk. apply Hkeep. rewrite lookup_insert. case_decide; [eauto|done].
    + intros j' [->|Hj']%elem_of_cons; [|by apply Hnew].
      apply Hkeep. rewrite Hname, lookup_insert_eq. eauto.
Qed.

Lemma well_keyed_names scenarios :
  well_keyed scenarios →
  name <$> (map_to_list scenarios).*2 = (map_to_list scenarios).*1.
Proof.
  intros Hwk.
  assert (Forall (fun kv => name kv.2 = kv.1) (map_to_list scenarios)) as Hall.
  { apply Forall_forall. intros [k s] Hks. apply elem_of_map_to_list in Hks. by apply Hwk. }
  induction Hall as [|[k s] l Hks _ IH]; [done|].
  rewrite !fmap_cons. simpl in *. f_equal; assumption.
Qed.

(** C10: a scenarios file in which two entries have the same kebab-case
    name is refused with an exception; when the load returns, the names
    of the file are pairwise distinct, each of them is the key of one
    scenario of that name, and no two entries of the registry carry the
    same name. *)
Theorem load_scenarios_file_unique_keys scenarios (new_scenarios : list ScenarioJson) :
  let names := (fun x => to_kebab_case (j_name x)) <$> new_scenarios in
  (¬ NoDup names →
     ∃ msg, load_scenarios_file join_dir read_config scenarios (Some new_scenarios)
            = Raise (Exception msg))
  ∧ (∀ next,
       well_keyed scenarios →
       load_scenarios_file join_dir read_config scenarios (Some new_scenarios) = Ok next →
       NoDup names
       ∧ (∀ n, n ∈ names → ∃ s, next !! n = Some s ∧ name s = n)
       ∧ NoDup (name <$> (map_to_list next).*2)).
Proof.
  intros names. unfold load_scenarios_file. fold names. split.
  - intros Hdup. rewrite bool_decide_eq_true_2; [eauto|].
    intros Hlen. by apply Hdup, length_size_NoDup.
  - intros next Hwk. case_bool_decide as Hlen; [discriminate|].
    intros Hadd. apply length_size_NoDup in Hlen.
    destruct (add_scenarios_ok _ _ _ Hadd Hwk) as (Hwk' & Hkeep & Hnew).
    split; [done|]. split.
    + intros n (j & -> & Hj)%list_elem_of_fmap.
      assert (is_Some (next !! to_kebab_case (j_name j))) as [s Hs].
      { destruct (decide (to_kebab_case (j_name j) ∈
                   (list_to_set (name <$> (map_to_list scenarios).*2) : gset string)))
          as [Hold|Hfresh].
        - apply Hkeep. apply elem_of_list_to_set in Hold.
          apply list_elem_of_fmap in Hold as (s & Hn & Hs).
          apply list_elem_of_fmap in Hs as ([k s'] & -> & Hks).
          apply elem_of_map_to_list in Hks. simpl in Hn.
          rewrite Hn, (Hwk _ _ Hks). eauto.
        - apply Hnew. apply list_elem_of_filter. done. }
      exists s. split; [done|]. by apply Hwk'.
    + rewrite (well_keyed_names _ Hwk'). apply NoDup_fst_map_to_list.
Qed.

(** The load does return: with distinct names, and every configuration
    readable, a registry comes back. *)
Lemma add_scenarios_returns updates scenarios :
  Forall (fun j => ∃ s, from_config_json join_dir read_config j = Ok s) updates →
  ∃ next, add_scenarios join_dir read_config updates scenarios = Ok next.
Proof.
  intros Hall. revert scenarios.
  induction Hall as [|j updates [s Hs] _ IH]; intros scenarios; simpl; [eauto|].
  rewrite Hs. cbn [mbind Res_bind]. apply IH.
Qed.

Lemma load_scenarios_file_returns scenarios (new_scenarios : list ScenarioJson) :
  NoDup ((fun x => to_kebab_case (j_name x)) <$> new_scenarios) →
  Forall (fun j => ∃ s, from_config_json join_dir read_config j = Ok s) new_scenarios →
  ∃ next, load_scenarios_file join_dir read_config scenarios (Some new_scenarios) = Ok next.
Proof.
  intros Hnd Hall. unfold load_scenarios_file.
  rewrite bool_decide_eq_false_2.
  - apply add_scenarios_returns. apply Forall_forall. intros j Hj.
    apply list_elem_of_filter in Hj as [_ Hj]. by eapply Forall_forall in Hall.
  - intros Hne. apply Hne. by apply length_size_NoDup.
Qed.

End RegistryFacts.


Lemma load_scenarios_file_unique_keys_witness :
  (∃ msg, load_scenarios_file sample_join_dir sample_read_config ∅
            (Some (mkScenarioJson "grid_world" "g.sumocfg" None None None None
                   :: sample_scenarios))
          = Raise (Exception msg))
  ∧ ∃ next,
      load_scenarios_file sample_join_dir sample_read_config ∅ (Some sample_scenarios)
      = Ok next
      ∧ NoDup ((fun x => to_kebab_case (j_name x)) <$> sample_scenarios)
      ∧ (∀ n, n ∈ (fun x => to_kebab_case (j_name x)) <$> sample_scenarios →
              ∃ s, next !! n = Some s ∧ name s = n)
      ∧ NoDup (name <$> (map_to_list next).*2).
Proof.
  split.
  - apply (load_scenarios_file_unique_keys sample_join_dir sample_read_config ∅).
    intros Hnd. apply NoDup_cons in Hnd as [Hnin _]. apply Hnin.
    vm_compute. left.
  - destruct (is_ok_true (load_scenarios_file sample_join_dir sample_read_config ∅
                            (Some sample_scenarios))) as [next Hnext];
      [vm_compute; reflexivity|].
    exists next. split; [exact Hnext|].
    apply (load_scenarios_file_unique_keys sample_join_dir sample_read_config ∅
             sample_scenarios).
    + apply well_keyed_empty.
    + exact Hnext.
Defined.


(** ** Simulation controller *)

Section ControllerFacts.
Context `{PyFloat}.
Variable current_scenario : Scenario.
Variable fcd_log : list (string * list (gmap string string)).
Variable lane_log : list (list string).

#[local] Abbreviation on_message := (on_message current_scenario fcd_log lane_log).
#[local] Abbreviation step := (step current_scenario fcd_log lane_log).
#[local] Abbreviation run := (run current_scenario fcd_log lane_log).
#[local] Abbreviation new_task := (new_task current_scenario fcd_log lane_log).

(** *** The tick loop outside RUNNING *)

Lemma tick_not_running i send_ok (st : State) :
  simulation_status st ≠ STATUS_RUNNING → tick i send_ok st = st.
Proof.
  intros Hs. unfold tick.
  destruct (tasks st !! i) as [t|]; [|done].
  destruct (task_state t); [|done..]. by rewrite decide_False.
Qed.

Lemma fcd_parser_set_state (l : list Task) i t s :
  l !! i = Some t →
  fcd_parser <$> <[i := mkTask (fcd_parser t) (lane_distr_parser t) s]> l = fcd_parser <$> l.
Proof.
  intros Hi. rewrite list_fmap_insert. apply list_insert_id.
  by rewrite list_lookup_fmap, Hi.
Qed.

Lemma cancel_task_cursors i (st : State) :
  fcd_parser <$> tasks (cancel_task i st) = fcd_parser <$> tasks st
  ∧ simulation_status (cancel_task i st) = simulation_status st
  ∧ next_calls (cancel_task i st) = next_calls st
  ∧ sent (cancel_task i st) = sent st.
Proof.
  unfold cancel_task. destruct (tasks st !! i) as [t|] eqn:Hi; [|done].
  destruct (task_state t); [|done..]. simpl. by rewrite fcd_parser_set_state.
Qed.

Lemma cleanup_cursors h live (st : State) :
  fcd_parser <$> tasks (cleanup_sumo_simulation h live st) = fcd_parser <$> tasks st
  ∧ simulation_status (cleanup_sumo_simulation h live st) = simulation_status st
  ∧ next_calls (cleanup_sumo_simulation h live st) = next_calls st
  ∧ sent (cleanup_sumo_simulation h live st) = sent st.
Proof.
  unfold cleanup_sumo_simulation. destruct h as [i|]; [|done].
  destruct (cancel_task_cursors i st) as (? & ? & ? & ?). by destruct live.
Qed.

(** What one event preserves when it finds the status away from RUNNING
    and is no start or resume. *)
Lemma step_idle ev (st : State) :
  simulation_status st ≠ STATUS_RUNNING →
  starts_or_resumes ev = false →
  simulation_status (step ev st) ≠ STATUS_RUNNING
  ∧ next_calls (step ev st) = next_calls st
  ∧ fcd_parser <$> tasks (step ev st) = fcd_parser <$> tasks st
  ∧ snapshots (step ev st) = snapshots st.
Proof.
  intros Hs Hq. destruct ev as [msg ok|i ok]; simpl.
  2:{ by rewrite tick_not_running. }
  destruct (handler st); [|done..].
  destruct msg as [[ty|] [a|] d| | |]; simpl; try done.
  - case_decide as Hty; [|done]. subst ty. simpl in Hq.
    apply bool_decide_eq_false in Hq.
    unfold action.
    case_decide as H1; [exfalso; apply Hq; auto|].
    case_decide as H2.
    { destruct ok; simpl; unfold snapshots; simpl;
        rewrite ?filter_app, ?length_app; simpl; repeat split; done || lia. }
    case_decide as H3; [exfalso; apply Hq; auto|].
    case_decide as H4.
    { destruct (cleanup_cursors (task st) (is_live current_scenario)
                  (set_status STATUS_OFF st)) as (Hc & Hst & Hn & Hsent).
      simpl in *.
      destruct ok; simpl; unfold snapshots; simpl;
        rewrite ?Hsent, ?Hst, ?Hn, ?Hc, ?filter_app, ?length_app; simpl;
        repeat split; done || lia. }
    case_decide as H5; [|done].
    destruct d as [d|]; [|done].
    destruct ok; simpl; unfold snapshots; simpl;
      rewrite ?filter_app, ?length_app; simpl; repeat split; done || lia.
  - case_decide; done.
  - destruct (cleanup_cursors (task st) (is_live current_scenario)
                (set_status STATUS_OFF st)) as (Hc & Hst & Hn & Hsent).
    simpl in *. unfold snapshots. rewrite Hst, Hn, Hc, Hsent. done.
Qed.


(** *** Control actions *)

(** C5, as the code has it: a pause action is accepted in every status,
    OFF included.  No exception leaves the handler, the status becomes
    PAUSED, and the state message that follows reports paused. *)
Theorem pause_accepted_in_every_status (st : State) (d : option Z) :
  let '(st', raised) := on_message (TEXT (Some "action") (Some "pause") d) true st in
  raised = None
  ∧ simulation_status st' = STATUS_PAUSED
  ∧ sent st' = (sent st ++ [StateMsg (delay_length_ms st)
                              (to_kebab_case (name current_scenario)) STATUS_PAUSED])%list
  ∧ tasks st' = tasks st
  ∧ last_vehicles st' = last_vehicles st.
Proof. simpl. repeat split. Qed.

(** C4, as the code has it: a start action is processed alike in every
    status, RUNNING included.  It sets the status to RUNNING and creates
    one more tick-loop task next to those that exist, so the number of live
    tick loops grows by one and the handler's [task] names the new one. *)
Theorem start_spawns_in_every_status (st : State) (d : option Z) :
  let '(st', raised) := on_message (TEXT (Some "action") (Some "start") d) true st in
  raised = None
  ∧ simulation_status st' = STATUS_RUNNING
  ∧ tasks st' = (tasks st ++ [new_task])%list
  ∧ task st' = Some (length (tasks st))
  ∧ live_tasks st' = S (live_tasks st).
Proof.
  destruct (is_live current_scenario) eqn:Hlive;
    cbn -[filter length live_tasks]; rewrite Hlive;
    (split; [done|]); (split; [done|]); (split; [done|]); (split; [done|]);
    unfold live_tasks; cbn -[filter length];
    rewrite filter_app, length_app;
    change (filter (fun t => is_pending t = true) [new_task]) with [new_task];
    cbn [length]; lia.
Qed.

(** *** The tick loop while RUNNING *)

(** Whether a timestep can be read does not depend on the cached frame. *)
Lemma readable_any_last ts (last : gmap string (gmap string PyVal)) :
  readable ts → ∃ snapshot vehicles, read_next_step ts.1 ts.2 last = Ok (snapshot, vehicles).
Proof.
  unfold readable, read_next_step.
  destruct (vehicles_by_id ts.2 ∅) as [vs|]; cbn [mbind Res_bind is_ok]; [|discriminate].
  destruct (mapM vClass_of (map_to_list vs).*2); cbn [mbind Res_bind is_ok]; [|discriminate].
  destruct (float_of ts.1); cbn [mbind Res_bind is_ok]; [|discriminate].
  eauto.
Qed.

Lemma lookup_set_task i t (st : State) :
  (i < length (tasks st))%nat → tasks (set_task i t st) !! i = Some t.
Proof. intros Hi. simpl. by apply list_lookup_insert_eq. Qed.

(** One iteration that finds a timestep and whose send succeeds. *)
Lemma tick_running_sends i (st : State) ts rest lp :
  tasks st !! i = Some (mkTask (Some (ts :: rest)) lp Pending) →
  simulation_status st = STATUS_RUNNING →
  readable ts →
  lp ≠ Some [] →
  tasks (tick i true st) !! i = Some (mkTask (Some rest) (tail <$> lp) Pending)
  ∧ simulation_status (tick i true st) = STATUS_RUNNING
  ∧ snapshots (tick i true st) = S (snapshots st)
  ∧ next_calls (tick i true st) = S (next_calls st).
Proof.
  intros Hi Hs Hr Hlp. pose proof (lookup_lt_Some _ _ _ Hi) as Hlt.
  destruct (readable_any_last ts (last_vehicles st) Hr) as (snap & vs & Hread).
  unfold tick. rewrite Hi. cbn [task_state fcd_parser lane_distr_parser].
  rewrite decide_True by done. destruct ts as [timestep vehicles].
  cbn [last_vehicles count_next]. simpl in Hread. rewrite Hread.
  destruct lp as [[|b bs]|]; [done| |];
    unfold snapshots; cbn -[filter length lookup insert];
    rewrite list_lookup_insert_eq by done;
    rewrite filter_app, length_app; cbn; rewrite decide_True by done; cbn;
    (repeat split; done || lia).
Qed.

(** The iteration that finds the trajectory log exhausted. *)
Lemma tick_exhausted i send_ok (st : State) lp :
  tasks st !! i = Some (mkTask (Some []) lp Pending) →
  simulation_status st = STATUS_RUNNING →
  task_state <$> tasks (tick i send_ok st) !! i = Some (Failed RuntimeError)
  ∧ simulation_status (tick i send_ok st) = STATUS_RUNNING
  ∧ sent (tick i send_ok st) = sent st
  ∧ last_vehicles (tick i send_ok st) = last_vehicles st.
Proof.
  intros Hi Hs. pose proof (lookup_lt_Some _ _ _ Hi) as Hlt.
  unfold tick. rewrite Hi. cbn [task_state fcd_parser lane_distr_parser].
  rewrite decide_True by done.
  cbn -[lookup insert]. rewrite list_lookup_insert_eq by done. done.
Qed.

(** A task that has ended is never resumed. *)
Lemma tick_ended i send_ok (st : State) t :
  tasks st !! i = Some t → task_state t ≠ Pending → tick i send_ok st = st.
Proof.
  intros Hi Ht. unfold tick. rewrite Hi. by destruct (task_state t).
Qed.

Lemma ticks_ended i send_ok (st : State) t n :
  tasks st !! i = Some t → task_state t ≠ Pending →
  run (replicate n (Tick i send_ok)) st = st.
Proof.
  intros Hi Ht. induction n as [|n IH]; [done|].
  cbn [replicate].
  change (run (Tick i send_ok :: replicate n (Tick i send_ok)) st)
    with (run (replicate n (Tick i send_ok)) (tick i send_ok st)).
  by rewrite (tick_ended _ _ _ _ Hi Ht).
Qed.

(** As many iterations as the log has timesteps left. *)
Lemma ticks_consume i log : ∀ (st : State) rest lp,
  tasks st !! i = Some (mkTask (Some (log ++ rest)%list) lp Pending) →
  simulation_status st = STATUS_RUNNING →
  Forall readable log →
  (∀ blocks, lp = Some blocks → (length log ≤ length blocks)%nat) →
  tasks (run (replicate (length log) (Tick i true)) st) !! i
    = Some (mkTask (Some rest) (drop (length log) <$> lp) Pending)
  ∧ simulation_status (run (replicate (length log) (Tick i true)) st) = STATUS_RUNNING
  ∧ snapshots (run (replicate (length log) (Tick i true)) st)
    = (snapshots st + length log)%nat
  ∧ next_calls (run (replicate (length log) (Tick i true)) st)
    = (next_calls st + length log)%nat.
Proof.
  induction log as [|ts log IH]; intros st rest lp Hi Hs Hr Hlp.
  - cbn [length replicate]. change (run [] st) with st.
    rewrite Hi. destruct lp; simpl; rewrite ?drop_0; repeat split; done || lia.
  - apply Forall_cons in Hr as [Hts Hr].
    assert (lp ≠ Some []) as Hne.
    { intros ->. specialize (Hlp [] eq_refl). simpl in Hlp. lia. }
    destruct (tick_running_sends i st ts (log ++ rest)%list lp Hi Hs Hts Hne)
      as (Hi' & Hs' & Hp' & Hn').
    cbn [length replicate].
    change (run (Tick i true :: replicate (length log) (Tick i true)) st)
      with (run (replicate (length log) (Tick i true)) (tick i true st)).
    destruct (IH _ rest (tail <$> lp) Hi' Hs' Hr) as (Hi2 & Hs2 & Hp2 & Hn2).
    { intros blocks Hb. destruct lp as [[|b bs]|]; simplify_eq/=.
      specialize (Hlp _ eq_refl). simpl in Hlp. lia. }
    rewrite Hi2, Hs2, Hp2, Hn2, Hp', Hn'.
    repeat split; try lia.
    destruct lp as [[|b bs]|]; simpl; done.
Qed.

Lemma start_step (st : State) :
  handler st = Serving →
  step (do_action "start") st
  = let st1 := set_status STATUS_RUNNING
                 (if is_live current_scenario then count_start_sumo st else st) in
    let st2 := set_tasks (Some (length (tasks st))) (tasks st ++ [new_task])%list st1 in
    send (get_state_websocket_message current_scenario st2) st2.
Proof.
  intros Hh. unfold do_action. cbn -[filter length lookup]. rewrite Hh.
  by destruct (is_live current_scenario).
Qed.


(** C6, the behaviour of the code where the claim fails: an iteration
    whose send raises [ConnectionResetError] ends the tick loop without an
    exception and without any of the cleanup of a cancel.  The status is
    still RUNNING, the cache holds the frame just read, and [stop_sumo]
    has not been called. *)
Theorem send_failure_skips_cleanup i (st : State) ts rest lp :
  tasks st !! i = Some (mkTask (Some (ts :: rest)) lp Pending) →
  simulation_status st = STATUS_RUNNING →
  readable ts →
  lp ≠ Some [] →
  let st' := step (Tick i false) st in
  task_state <$> tasks st' !! i = Some Finished
  ∧ simulation_status st' = STATUS_RUNNING
  ∧ (∃ snapshot, read_next_step ts.1 ts.2 (last_vehicles st)
                 = Ok (snapshot, last_vehicles st'))
  ∧ stop_sumo_calls st' = stop_sumo_calls st
  ∧ sent st' = sent st.
Proof.
  intros Hi Hs Hr Hlp. pose proof (lookup_lt_Some _ _ _ Hi) as Hlt.
  destruct (readable_any_last ts (last_vehicles st) Hr) as (snap & vs & Hread).
  change (step (Tick i false) st) with (tick i false st).
  unfold tick. rewrite Hi. cbn [task_state fcd_parser lane_distr_parser].
  rewrite decide_True by done. destruct ts as [timestep vehicles].
  cbn [last_vehicles count_next]. simpl in Hread. rewrite Hread.
  destruct lp as [[|b bs]|]; [done| |];
    cbn -[lookup insert]; rewrite list_lookup_insert_eq by done;
    (repeat split; eauto).
Qed.

(** What a cancel action, and an error frame, do instead. *)
Lemma cancel_cleans_up (st : State) (d : option Z) i :
  task st = Some i →
  let '(st', raised) := on_message (TEXT (Some "action") (Some "cancel") d) true st in
  raised = None
  ∧ simulation_status st' = STATUS_OFF
  ∧ last_vehicles st' = ∅
  ∧ last_lights st' = ∅
  ∧ stop_sumo_calls st'
    = (if is_live current_scenario then S (stop_sumo_calls st) else stop_sumo_calls st).
Proof.
  intros Hi. destruct st as [s dl lv ll h ts out hs n1 n2 n3]. simpl in Hi. subst h.
  simpl. unfold cancel_task. simpl.
  destruct (ts !! i) as [t|]; [destruct (task_state t)|];
    destruct (is_live current_scenario); simpl; done.
Qed.

Lemma error_frame_cleans_up_as_cancel (st : State) (d : option Z) send_ok :
  match action current_scenario fcd_log lane_log (is_live current_scenario) "cancel" d st with
  | Ok st' => on_message ERROR send_ok st = (st', None)
  | Raise _ => False
  end.
Proof. reflexivity. Qed.

(** A close frame ends the handler and cleans nothing up. *)
Lemma close_frame_skips_cleanup (st : State) send_ok :
  handler st = Serving →
  step (Recv CLOSE send_ok) st = set_handler Returned st.
Proof. intros Hh. simpl. by rewrite Hh. Qed.

End ControllerFacts.

Section ControllerExamples.
#[local] Existing Instance Decimal.decimal.
#[local] Existing Instance Decimal.decimal_float.

#[local] Abbreviation sample_step := (step sample_recorded sample_fcd_log []).
#[local] Abbreviation sample_run := (run sample_recorded sample_fcd_log []).

Lemma sample_fcd_log_readable : Forall readable sample_fcd_log.
Proof.
  unfold sample_fcd_log.
  repeat (apply Forall_cons; split; [vm_compute; reflexivity|]).
  apply Forall_nil. exact I.
Qed.



(** C4 fails as stated: two starts in a row leave two live tick loops,
    and one round of the event loop then calls [next] twice. *)
Lemma second_start_counterexample :
  let st1 := sample_run [do_action "start"] initial in
  let st2 := sample_step (do_action "start") st1 in
  let st3 := sample_run [Tick 0 true; Tick 1 true] st2 in
  simulation_status st1 = STATUS_RUNNING
  ∧ live_tasks st1 = 1%nat
  ∧ live_tasks st2 = 2%nat
  ∧ ¬ (live_tasks st2 ≤ 1)%nat
  ∧ next_calls st3 = 2%nat.
Proof.
  vm_compute. repeat split. lia.
Qed.

(** C5 fails as stated: a pause in the initial OFF state raises nothing,
    leaves the status PAUSED, and is answered with "paused". *)
Lemma pause_when_off_counterexample :
  let st := sample_step (do_action "pause") initial in
  simulation_status initial = STATUS_OFF
  ∧ simulation_status st ≠ STATUS_OFF
  ∧ handler st = Serving
  ∧ sent st = [StateMsg 30 "grid-world" STATUS_PAUSED].
Proof.
  vm_compute. repeat split. discriminate.
Qed.

Lemma send_failure_skips_cleanup_witness :
  let st := sample_step (do_action "start") initial in
  let st' := sample_step (Tick 0 false) st in
  task_state <$> tasks st' !! 0%nat = Some Finished
  ∧ simulation_status st' = STATUS_RUNNING
  ∧ (∃ snapshot, read_next_step "0.00" [sample_vehicle] (last_vehicles st)
                 = Ok (snapshot, last_vehicles st'))
  ∧ stop_sumo_calls st' = stop_sumo_calls st
  ∧ sent st' = sent st.
Proof.
  apply (send_failure_skips_cleanup sample_recorded sample_fcd_log [] 0
           (sample_step (do_action "start") initial) ("0.00", [sample_vehicle])
           [("1.00", [<["x" := "26.39"]> sample_vehicle]); ("2.00", [])] None).
  - reflexivity.
  - reflexivity.
  - vm_compute. reflexivity.
  - discriminate.
Defined.


End ControllerExamples.

(** * Further properties *)

(** ** Names and registry *)

Section NameFacts.

Lemma map_string_compose (f g : ascii → ascii) s :
  map_string f (map_string g s) = map_string (fun c => f (g c)) s.
Proof. induction s as [|c s IH]; simpl; [done|]. by rewrite IH. Qed.

Lemma map_string_ext (f g : ascii → ascii) s :
  (∀ c, f c = g c) → map_string f s = map_string g s.
Proof. intros Hfg. induction s as [|c s IH]; simpl; [done|]. by rewrite Hfg, IH. Qed.

(** What [to_kebab_case] does to one character. *)
Lemma to_kebab_case_chars s :
  to_kebab_case s
  = map_string (fun c =>
      let c := lower_ascii c in
      let c := if decide (c = " "%char) then "-"%char else c in
      if decide (c = "_"%char) then "-"%char else c) s.
Proof.
  unfold to_kebab_case, replace, lower. by rewrite !map_string_compose.
Qed.

Lemma kebab_char_idempotent (c : ascii) :
  let k c := let c := lower_ascii c in
             let c := if decide (c = " "%char) then "-"%char else c in
             if decide (c = "_"%char) then "-"%char else c in
  k (k c) = k c.
Proof. destruct c as [[] [] [] [] [] [] [] []]; vm_compute; reflexivity. Qed.

Lemma to_kebab_case_idempotent_aux s :
  to_kebab_case (to_kebab_case s) = to_kebab_case s.
Proof.
  rewrite !to_kebab_case_chars, map_string_compose.
  apply map_string_ext. intros c. apply kebab_char_idempotent.
Qed.



End NameFacts.


Section DefaultScenario.
Implicit Types scenarios : gmap string Scenario.

Lemma elem_of_defaults scenarios k :
  k ∈ (filter (fun ks => is_default ks.2 = true) (map_to_list scenarios)).*1
  ↔ ∃ s, scenarios !! k = Some s ∧ is_default s = true.
Proof.
  rewrite list_elem_of_fmap. split.
  - intros ([k' s] & -> & [Hd Hks]%list_elem_of_filter).
    apply elem_of_map_to_list in Hks. eauto.
  - intros (s & Hks & Hd). exists (k, s). split; [done|].
    apply list_elem_of_filter. split; [done|]. by apply elem_of_map_to_list.
Qed.

Lemma NoDup_defaults scenarios :
  NoDup (filter (fun ks => is_default ks.2 = true) (map_to_list scenarios)).*1.
Proof.
  eapply sublist_NoDup; [apply (NoDup_fst_map_to_list scenarios)|].
  apply fmap_sublist, sublist_filter.
Qed.

(** X3: [get_default_scenario_name] returns a key exactly when that key
    holds the only scenario with [is_default] set. *)
Theorem get_default_scenario_name_unique scenarios (k : string) :
  get_default_scenario_name scenarios = Ok k
  ↔ (∃ s, scenarios !! k = Some s ∧ is_default s = true)
    ∧ (∀ k' s', scenarios !! k' = Some s' → is_default s' = true → k' = k).
Proof.
  unfold get_default_scenario_name.
  pose proof (elem_of_defaults scenarios) as Hin.
  pose proof (NoDup_defaults scenarios) as Hnd.
  destruct ((filter (fun ks => is_default ks.2 = true) (map_to_list scenarios)).*1)
    as [|k1 [|k2 l]]; split.
  - discriminate.
  - intros [Hk _]. apply Hin in Hk. by apply elem_of_nil in Hk.
  - intros [= <-]. split.
    + apply Hin. by apply list_elem_of_singleton.
    + intros k' s' Hk' Hd'. apply list_elem_of_singleton, Hin. eauto.
  - intros [Hk _]. apply Hin, list_elem_of_singleton in Hk. by subst.
  - discriminate.
  - intros [_ Huniq]. exfalso.
    assert (k1 = k) as ->.
    { destruct (proj1 (Hin k1)) as (s & ? & ?); [by left|]. eauto. }
    assert (k2 = k) as ->.
    { destruct (proj1 (Hin k2)) as (s & ? & ?); [right; by left|]. eauto. }
    apply NoDup_cons in Hnd as [Hnin _]. apply Hnin. by left.
Qed.

(** X4: with no default scenario the function does not pick one, as its
    docstring says, but raises [TypeError]. *)
Theorem get_default_scenario_name_no_default scenarios :
  (∀ k s, scenarios !! k = Some s → is_default s = false) →
  get_default_scenario_name scenarios = Raise TypeError.
Proof.
  intros Hnone. unfold get_default_scenario_name.
  pose proof (elem_of_defaults scenarios) as Hin.
  destruct ((filter (fun ks => is_default ks.2 = true) (map_to_list scenarios)).*1)
    as [|k1 l]; [done|].
  destruct (proj1 (Hin k1)) as (s & Hs & Hd); [by left|].
  rewrite (Hnone _ _ Hs) in Hd. discriminate.
Qed.

End DefaultScenario.

Lemma get_default_scenario_name_no_default_witness :
  get_default_scenario_name
    {[ "ring-road" := mkScenario "scenarios/ring/ring.sumocfg" "ring_road" "ring-road" false
                        (mkConfigFiles "<net/>" None None "{}" None) None None ]}
  = Raise TypeError.
Proof.
  apply get_default_scenario_name_no_default.
  intros k s. rewrite lookup_singleton. case_decide; [|discriminate].
  intros [= <-]. reflexivity.
Defined.

(** ** Entity construction, further *)

Section EntityShape.
Context `{PyFloat}.
Implicit Types vehicle : gmap string string.

Lemma split_length sep s : length (split sep s) = S (count_char sep s).
Proof.
  induction s as [|c s IH]; simpl; [done|].
  case_decide; simpl; [by rewrite IH|].
  destruct (split sep s); simpl in *; lia.
Qed.

Lemma lstrip_head_ok s : head_ok (lstrip s).
Proof. induction s as [|c s IH]; simpl; [done|]. destruct (is_space c) eqn:Hc; simpl; done. Qed.

Lemma head_ok_lstrip s : head_ok s → lstrip s = s.
Proof. destruct s as [|c s]; simpl; [done|]. by intros ->. Qed.

Lemma rstrip_head_ok s : head_ok s → head_ok (rstrip s).
Proof.
  destruct s as [|c s]; simpl; [done|]. intros Hc.
  destruct (rstrip s); simpl; [by rewrite Hc|done].
Qed.

Lemma rstrip_idempotent s : rstrip (rstrip s) = rstrip s.
Proof.
  induction s as [|c s IH]; simpl; [done|].
  destruct (rstrip s) as [|a r] eqn:Hr.
  - destruct (is_space c) eqn:Hc; simpl; [done|]. by rewrite Hc.
  - change (rstrip (String c (String a r))) with
      (match rstrip (String a r) with
       | EmptyString => if is_space c then EmptyString else String c EmptyString
       | r' => String c r'
       end).
    by rewrite IH.
Qed.

Lemma strip_idempotent s : strip (strip s) = strip s.
Proof.
  unfold strip.
  rewrite (head_ok_lstrip (rstrip (lstrip s))) by apply rstrip_head_ok, lstrip_head_ok.
  apply rstrip_idempotent.
Qed.


End EntityShape.

Section EntityExamples2.
#[local] Existing Instance Decimal.decimal.
#[local] Existing Instance Decimal.decimal_float.


End EntityExamples2.

Section EntityConstruction.
Context `{PyFloat}.
Implicit Types vehicle : gmap string string.

(** The record as the body sees it after the rewrite of its type. *)
Lemma retyped_lookup vehicle ty k :
  k ≠ "type" →
  (if decide (ty = "DEFAULT_VEHTYPE") then <["type" := "car"]> vehicle else vehicle) !! k
  = vehicle !! k.
Proof. intros Hk. case_decide; [by rewrite lookup_insert_ne|done]. Qed.

Lemma read_fcd_vehicle_fields vehicle (e : gmap string PyVal) :
  read_fcd_vehicle vehicle = Ok e →
  is_Some (vehicle !! "type") ∧ is_Some (vehicle !! "angle")
  ∧ numeric_field vehicle "x" ∧ numeric_field vehicle "y"
  ∧ numeric_field vehicle "speed".
Proof.
  unfold read_fcd_vehicle, getitem, float_of, numeric_field.
  destruct (vehicle !! "type") as [ty|] eqn:Hty; cbn [mbind Res_bind]; [|discriminate].
  set (v := if decide (ty = "DEFAULT_VEHTYPE") then _ else _).
  assert (∀ k, k ≠ "type" → v !! k = vehicle !! k) as Hv.
  { intros k Hk. subst v. by apply retyped_lookup. }
  clearbody v.
  destruct (v !! "x") as [x|] eqn:Hx; cbn [mbind Res_bind]; [|discriminate].
  destruct (float x) as [fx|] eqn:Hfx; cbn [mbind Res_bind]; [|discriminate].
  destruct (v !! "y") as [y|] eqn:Hy; cbn [mbind Res_bind]; [|discriminate].
  destruct (float y) as [fy|] eqn:Hfy; cbn [mbind Res_bind]; [|discriminate].
  destruct (v !! "speed") as [sp|] eqn:Hs; cbn [mbind Res_bind]; [|discriminate].
  destruct (float sp) as [fs|] eqn:Hfs; cbn [mbind Res_bind]; [|discriminate].
  destruct (v !! "angle") as [a|] eqn:Ha; cbn [mbind Res_bind]; [|discriminate].
  rewrite Hv in Hx, Hy, Hs, Ha by done.
  intros _. repeat split; eauto.
Qed.

(** X6: construction succeeds exactly for the records that have a type
    and an angle and whose x, y and speed read as numbers; no other
    attribute is needed, the id included. *)
Theorem read_fcd_vehicle_succeeds_iff vehicle :
  (∃ e, read_fcd_vehicle vehicle = Ok e)
  ↔ is_Some (vehicle !! "type") ∧ is_Some (vehicle !! "angle")
    ∧ numeric_field vehicle "x" ∧ numeric_field vehicle "y"
    ∧ numeric_field vehicle "speed".
Proof.
  split.
  - intros [e He]. by eapply read_fcd_vehicle_fields.
  - intros ([ty Hty] & [a Ha] & (x & fx & Hx & Hfx) & (y & fy & Hy & Hfy)
            & (sp & fs & Hs & Hfs)).
    eexists. eapply read_fcd_vehicle_ok; eassumption.
Qed.

(** X7: every entity has the same ten keys, and "color" exactly when the
    record has one; the source attributes (id, pos, lane, slope, ...) are
    not copied.  z, length, width and signals are the constants 0, 4.5,
    1.8 and 0 whatever the record holds. *)
Theorem read_fcd_vehicle_shape vehicle (e : gmap string PyVal) :
  read_fcd_vehicle vehicle = Ok e →
  dom e = entity_keys ∪ (if decide (is_Some (vehicle !! "color")) then {["color"]} else ∅)
  ∧ e !! "z" = Some (VInt 0)
  ∧ e !! "length" = Some (VFloat lit_4_5)
  ∧ e !! "width" = Some (VFloat lit_1_8)
  ∧ e !! "signals" = Some (VInt 0).
Proof.
  intros He.
  destruct (read_fcd_vehicle_fields _ _ He)
    as ([ty Hty] & [a Ha] & (x & fx & Hx & Hfx) & (y & fy & Hy & Hfy)
        & (sp & fs & Hs & Hfs)).
  rewrite (read_fcd_vehicle_ok _ _ _ _ _ _ _ _ _ Hty Hx Hfx Hy Hfy Hs Hfs Ha) in He.
  injection He as <-. split.
  - rewrite dom_union_L, !dom_insert_L, dom_empty_L. unfold parse_color, entity_keys.
    destruct (vehicle !! "color") as [c|].
    + rewrite decide_True by eauto. rewrite dom_singleton_L. simpl. set_solver.
    + rewrite decide_False by (intros [? ?]; discriminate). rewrite dom_empty_L.
      simpl. set_solver.
  - rewrite !entity_lookup_ne by done. done.
Qed.

(** X8: a record whose x, y or speed is present but is no number is
    refused with [ValueError]. *)
Theorem read_fcd_vehicle_rejects_non_numeric vehicle ty x y speed :
  vehicle !! "type" = Some ty →
  vehicle !! "x" = Some x →
  vehicle !! "y" = Some y →
  vehicle !! "speed" = Some speed →
  float x = None ∨ float y = None ∨ float speed = None →
  read_fcd_vehicle vehicle = Raise ValueError.
Proof.
  intros Hty Hx Hy Hs Hbad.
  destruct (float x) as [fx|] eqn:Hfx;
    [|by eapply read_fcd_vehicle_rejects_x].
  destruct (float y) as [fy|] eqn:Hfy;
    [|by eapply read_fcd_vehicle_rejects_y].
  destruct (float speed) as [fs|] eqn:Hfs;
    [|by eapply read_fcd_vehicle_rejects_speed].
  destruct Hbad as [|[|]]; discriminate.
Qed.

End EntityConstruction.

Section EntityExamples3.
#[local] Existing Instance Decimal.decimal.
#[local] Existing Instance Decimal.decimal_float.

Lemma read_fcd_vehicle_shape_witness :
  ∃ e : gmap string PyVal,
    read_fcd_vehicle sample_vehicle = Ok e
    ∧ dom e = entity_keys
              ∪ (if decide (is_Some (sample_vehicle !! "color")) then {["color"]} else ∅)
    ∧ e !! "z" = Some (VInt 0)
    ∧ e !! "length" = Some (VFloat lit_4_5)
    ∧ e !! "width" = Some (VFloat lit_1_8)
    ∧ e !! "signals" = Some (VInt 0).
Proof.
  destruct (is_ok_true (read_fcd_vehicle sample_vehicle)) as [e He];
    [vm_compute; reflexivity|].
  exists e. split; [exact He|].
  exact (read_fcd_vehicle_shape sample_vehicle e He).
Defined.

Lemma read_fcd_vehicle_rejects_non_numeric_witness :
  read_fcd_vehicle (<["speed" := "fast"]> sample_vehicle) = Raise ValueError.
Proof.
  apply (read_fcd_vehicle_rejects_non_numeric (<["speed" := "fast"]> sample_vehicle)
           "DEFAULT_VEHTYPE" "12.50" "7.25" "fast").
  - vm_compute. reflexivity.
  - vm_compute. reflexivity.
  - vm_compute. reflexivity.
  - vm_compute. reflexivity.
  - right. right. vm_compute. reflexivity.
Defined.

End EntityExamples3.

(** ** Reading one timestep *)

Section TimestepFacts.
Context `{PyFloat}.
Implicit Types vehicles : list (gmap string string).
Implicit Types acc cache : gmap string (gmap string PyVal).

Lemma vehicles_by_id_other vehicles : ∀ acc m (id : string),
  vehicles_by_id vehicles acc = Ok m →
  (∀ w, w ∈ vehicles → w !! "id" ≠ Some id) →
  m !! id = acc !! id.
Proof.
  induction vehicles as [|v vehicles IH]; intros acc m id; simpl.
  - by intros [= <-].
  - unfold getitem. destruct (v !! "id") as [id'|] eqn:Hid; cbn [mbind Res_bind];
      [|discriminate].
    destruct (read_fcd_vehicle v) as [e|]; cbn [mbind Res_bind]; [|discriminate].
    intros Hm Hne. rewrite (IH _ _ id Hm).
    + apply lookup_insert_ne. intros ->. by apply (Hne v); [left|].
    + intros w Hw. apply Hne. by right.
Qed.

Lemma vehicles_by_id_last pre v post : ∀ acc m (id : string),
  vehicles_by_id (pre ++ v :: post) acc = Ok m →
  v !! "id" = Some id →
  (∀ w, w ∈ post → w !! "id" ≠ Some id) →
  ∃ e, read_fcd_vehicle v = Ok e ∧ m !! id = Some e.
Proof.
  induction pre as [|u pre IH]; intros acc m id; simpl.
  - intros Hm Hid Hpost. unfold getitem in Hm. rewrite Hid in Hm.
    cbn [mbind Res_bind] in Hm.
    destruct (read_fcd_vehicle v) as [e|]; cbn [mbind Res_bind] in Hm; [|discriminate].
    exists e. split; [done|].
    rewrite (vehicles_by_id_other _ _ _ id Hm Hpost). apply lookup_insert_eq.
  - unfold getitem. destruct (u !! "id") as [id'|]; cbn [mbind Res_bind]; [|discriminate].
    destruct (read_fcd_vehicle u) as [e|]; cbn [mbind Res_bind]; [|discriminate].
    apply IH.
Qed.

Lemma vehicles_by_id_dom vehicles : ∀ acc m (id : string),
  vehicles_by_id vehicles acc = Ok m →
  is_Some (m !! id) ↔ is_Some (acc !! id) ∨ ∃ v, v ∈ vehicles ∧ v !! "id" = Some id.
Proof.
  induction vehicles as [|v vehicles IH]; intros acc m id; simpl.
  - intros [= <-]. split; [by left|]. intros [?|(v & Hv & _)]; [done|].
    by apply elem_of_nil in Hv.
  - unfold getitem. destruct (v !! "id") as [id'|] eqn:Hid; cbn [mbind Res_bind];
      [|discriminate].
    destruct (read_fcd_vehicle v) as [e|]; cbn [mbind Res_bind]; [|discriminate].
    intros Hm. rewrite (IH _ _ id Hm), lookup_insert. split.
    + intros [Hi|(w & Hw & Hwid)].
      * case_decide as Hd; [|by left]. subst id'. right. exists v. split; [by left|done].
      * right. exists w. split; [by right|done].
    + intros [Hi|(w & [->|Hw]%elem_of_cons & Hwid)].
      * left. case_decide; [eauto|done].
      * left. rewrite Hid in Hwid. injection Hwid as ->. rewrite decide_True by done. eauto.
      * right. eauto.
Qed.

(** X9: the frame that [read_next_step] caches has one entity for every
    id that occurs in the timestep and no other; where several records
    carry the same id, the entity is built from the last of them. *)
Theorem read_next_step_cache (timestep : string) vehicles last (snapshot : Snapshot) cache :
  read_next_step timestep vehicles last = Ok (snapshot, cache) →
  (∀ id : string,
     is_Some (cache !! id) ↔ ∃ v, v ∈ vehicles ∧ v !! "id" = Some id)
  ∧ (∀ pre v post (id : string),
       vehicles = (pre ++ v :: post)%list →
       v !! "id" = Some id →
       (∀ w, w ∈ post → w !! "id" ≠ Some id) →
       ∃ e, read_fcd_vehicle v = Ok e ∧ cache !! id = Some e).
Proof.
  unfold read_next_step.
  destruct (vehicles_by_id vehicles ∅) as [m|] eqn:Hm; cbn [mbind Res_bind]; [|discriminate].
  destruct (mapM vClass_of (map_to_list m).*2); cbn [mbind Res_bind]; [|discriminate].
  destruct (float_of timestep); cbn [mbind Res_bind]; [|discriminate].
  intros [= _ <-]. split.
  - intros id. rewrite (vehicles_by_id_dom _ _ _ id Hm), lookup_empty.
    split; [intros [[? ?]|?]; [discriminate|done]|by right].
  - intros pre v post id -> Hid Hpost. by eapply vehicles_by_id_last.
Qed.

Lemma Counter_from (ks : list string) : ∀ (c : gmap string nat) (k : string),
  default 0%nat (foldl (fun c k => <[k := S (default 0%nat (c !! k))]> c) c ks !! k)
  = (default 0%nat (c !! k) + length (filter (fun x => x = k) ks))%nat.
Proof.
  induction ks as [|a ks IH]; intros c k; simpl; [lia|].
  rewrite IH, lookup_insert, filter_cons.
  destruct (decide (a = k)) as [->|Hne]; simpl; lia.
Qed.

Lemma vClass_of_Ok (e : gmap string PyVal) (c : string) :
  vClass_of e = Ok c → e !! "vClass" = Some (VStr c).
Proof.
  unfold vClass_of, getitem.
  destruct (e !! "vClass") as [[f|n|c'|l']|]; cbn [mbind Res_bind]; try discriminate.
  by intros [= ->].
Qed.

Lemma mapM_vClass_of_classes (l : list (gmap string PyVal)) : ∀ cs,
  mapM vClass_of l = Ok cs →
  Forall2 (fun e c => e !! "vClass" = Some (VStr c)) l cs.
Proof.
  induction l as [|e l IH]; intros cs.
  - intros [= <-]. constructor.
  - change (mapM vClass_of (e :: l))
      with (y ← vClass_of e; k ← mapM vClass_of l; mret (y :: k)).
    destruct (vClass_of e) as [c|] eqn:Hc; cbn [mbind Res_bind]; [|discriminate].
    destruct (mapM vClass_of l) as [cs'|] eqn:Hl; cbn [mbind Res_bind]; [|discriminate].
    intros [= <-]. constructor; [by apply vClass_of_Ok|by apply IH].
Qed.

Lemma count_classes (l : list (gmap string PyVal)) cs (c : string) :
  Forall2 (fun e c => e !! "vClass" = Some (VStr c)) l cs →
  length (filter (fun x => x = c) cs)
  = length (filter (fun e => e !! "vClass" = Some (VStr c)) l).
Proof.
  induction 1 as [|e c' l cs He _ IH]; [done|].
  rewrite !filter_cons. destruct (decide (c' = c)) as [->|Hne].
  - rewrite decide_True by done. simpl. by rewrite IH.
  - rewrite decide_False by congruence. done.
Qed.

Lemma size_filter_class (m : gmap string (gmap string PyVal)) (c : string) :
  size (filter (fun kv => kv.2 !! "vClass" = Some (VStr c)) m)
  = length (filter (fun e => e !! "vClass" = Some (VStr c)) (map_to_list m).*2).
Proof.
  rewrite map_filter_alt, map_size_list_to_map.
  - generalize (map_to_list m). intros l.
    induction l as [|[k e] l IH]; [done|].
    rewrite fmap_cons, !filter_cons. simpl.
    destruct (decide (e !! "vClass" = Some (VStr c))); simpl; by rewrite IH.
  - eapply sublist_NoDup; [apply (NoDup_fst_map_to_list m)|].
    apply fmap_sublist, sublist_filter.
Qed.

(** X10: the [vehicle_counts] of a snapshot give, for every class, the
    number of entities of that class in the frame just cached. *)
Theorem read_next_step_counts (timestep : string) vehicles last (snapshot : Snapshot) cache
    (c : string) :
  read_next_step timestep vehicles last = Ok (snapshot, cache) →
  default 0%nat (snap_vehicle_counts snapshot !! c)
  = size (filter (fun kv => kv.2 !! "vClass" = Some (VStr c)) cache).
Proof.
  unfold read_next_step.
  destruct (vehicles_by_id vehicles ∅) as [m|] eqn:Hm; cbn [mbind Res_bind]; [|discriminate].
  destruct (mapM vClass_of (map_to_list m).*2) as [cs|] eqn:Hcs; cbn [mbind Res_bind];
    [|discriminate].
  destruct (float_of timestep); cbn [mbind Res_bind]; [|discriminate].
  intros [= <- <-]. cbn [snap_vehicle_counts]. unfold Counter.
  rewrite Counter_from, lookup_empty. simpl.
  rewrite (count_classes _ _ c (mapM_vClass_of_classes _ _ Hcs)).
  symmetry. apply size_filter_class.
Qed.

End TimestepFacts.

Section TimestepExamples.
#[local] Existing Instance Decimal.decimal.
#[local] Existing Instance Decimal.decimal_float.

Lemma read_next_step_cache_witness :
  let vehicles := [sample_vehicle; <["x" := "26.39"]> sample_vehicle] in
  ∃ (snapshot : Snapshot) (cache : gmap string (gmap string PyVal)),
    read_next_step "0.00" vehicles ∅ = Ok (snapshot, cache)
    ∧ (∀ id : string,
         is_Some (cache !! id) ↔ ∃ v, v ∈ vehicles ∧ v !! "id" = Some id)
    ∧ (∀ pre v post (id : string),
         vehicles = (pre ++ v :: post)%list →
         v !! "id" = Some id →
         (∀ w, w ∈ post → w !! "id" ≠ Some id) →
         ∃ e, read_fcd_vehicle v = Ok e ∧ cache !! id = Some e).
Proof.
  intros vehicles.
  destruct (is_ok_true (read_next_step "0.00" vehicles ∅)) as [[snapshot cache] Hr];
    [vm_compute; reflexivity|].
  exists snapshot, cache. split; [exact Hr|].
  exact (read_next_step_cache "0.00" vehicles ∅ snapshot cache Hr).
Defined.

Lemma read_next_step_counts_witness :
  ∃ (snapshot : Snapshot) (cache : gmap string (gmap string PyVal)),
    read_next_step "0.00" [sample_vehicle; <["id" := "bike1"]> (<["vClass" := "bicycle"]>
                                                                 sample_vehicle)] ∅
    = Ok (snapshot, cache)
    ∧ default 0%nat (snap_vehicle_counts snapshot !! "passenger")
      = size (filter (fun kv => kv.2 !! "vClass" = Some (VStr "passenger")) cache).
Proof.
  destruct (is_ok_true (read_next_step "0.00"
              [sample_vehicle; <["id" := "bike1"]> (<["vClass" := "bicycle"]> sample_vehicle)]
              ∅)) as [[snapshot cache] Hr];
    [vm_compute; reflexivity|].
  exists snapshot, cache. split; [exact Hr|].
  exact (read_next_step_counts _ _ _ snapshot cache "passenger" Hr).
Defined.

End TimestepExamples.

(** ** The trajectory log parser *)

Section ParseFcd.
Implicit Types events : list (string * Elem).

Lemma parse_fcd_from_skip events : ∀ timestep,
  Forall (fun ev => is_timestep_end ev = false) events →
  parse_fcd_from events timestep = ([], None).
Proof.
  induction events as [|[event elem] events IH]; intros timestep Hall; simpl; [done|].
  apply Forall_cons in Hall as [Hev Hall]. unfold is_timestep_end in Hev. simpl in Hev.
  rewrite Hev. destruct (bool_decide (tag elem = "vehicle" ∧ event = "end")); by apply IH.
Qed.

Lemma parse_fcd_from_app_skip events tail : ∀ timestep,
  Forall (fun ev => is_timestep_end ev = false) tail →
  parse_fcd_from (events ++ tail) timestep = parse_fcd_from events timestep.
Proof.
  induction events as [|[event elem] events IH]; intros timestep Htail; simpl.
  - by apply parse_fcd_from_skip.
  - destruct (bool_decide (tag elem = "vehicle" ∧ event = "end")); [by apply IH|].
    destruct (bool_decide (tag elem = "timestep" ∧ event = "end")); [|by apply IH].
    destruct (attrib elem !! "time"); [|done]. by rewrite IH.
Qed.

Lemma parse_fcd_from_segment segment : ∀ timestep (elem : Elem) (time : string) rest,
  Forall (fun ev => is_timestep_end ev = false) segment →
  tag elem = "timestep" →
  attrib elem !! "time" = Some time →
  parse_fcd_from (segment ++ ("end", elem) :: rest) timestep
  = ((time, (attrib <$> timestep) ++ vehicles_of segment)%list :: (parse_fcd rest).1,
     (parse_fcd rest).2).
Proof.
  induction segment as [|[event e] segment IH]; intros timestep elem time rest Hseg Htag Htime.
  - simpl. rewrite Htag. rewrite bool_decide_eq_false_2 by (intros [? _]; discriminate).
    rewrite bool_decide_eq_true_2 by done. rewrite Htime.
    unfold parse_fcd, vehicles_of. simpl. rewrite app_nil_r.
    by destruct (parse_fcd_from rest []).
  - apply Forall_cons in Hseg as [Hev Hseg]. unfold is_timestep_end in Hev. simpl in Hev.
    cbn [app parse_fcd_from]. rewrite Hev.
    pose proof (eq_refl : is_vehicle_end (event, e)
                          = bool_decide (tag e = "vehicle" ∧ event = "end")) as Hdef.
    destruct (bool_decide (tag e = "vehicle" ∧ event = "end")).
    + rewrite (IH _ _ _ _ Hseg Htag Htime).
      unfold vehicles_of. rewrite filter_cons, decide_True by done.
      rewrite fmap_app, !fmap_cons. simpl. by rewrite <- app_assoc.
    + rewrite (IH _ _ _ _ Hseg Htag Htime).
      unfold vehicles_of. rewrite filter_cons, decide_False; [done|].
      rewrite Hdef. discriminate.
Qed.

(** X11: a timestep is yielded with its time and with the attributes of
    exactly the vehicle elements that ended since the previous timestep,
    in document order; elements of any other kind (persons, containers)
    contribute nothing.  The parser then goes on with an empty buffer. *)
Theorem parse_fcd_timestep segment (elem : Elem) (time : string) rest :
  Forall (fun ev => is_timestep_end ev = false) segment →
  tag elem = "timestep" →
  attrib elem !! "time" = Some time →
  parse_fcd (segment ++ ("end", elem) :: rest)
  = ((time, vehicles_of segment) :: (parse_fcd rest).1, (parse_fcd rest).2).
Proof.
  intros Hseg Htag Htime. unfold parse_fcd at 1.
  by rewrite (parse_fcd_from_segment _ _ _ _ _ Hseg Htag Htime).
Qed.

(** X12: what follows the last timestep end is dropped: vehicle elements
    that are not closed by a timestep are never yielded. *)
Theorem parse_fcd_trailing_dropped events tail :
  Forall (fun ev => is_timestep_end ev = false) tail →
  parse_fcd (events ++ tail) = parse_fcd events.
Proof. intros Htail. unfold parse_fcd. by apply parse_fcd_from_app_skip. Qed.

Lemma parse_fcd_from_count events : ∀ timestep,
  Forall (fun ev => is_timestep_end ev = true → is_Some (attrib ev.2 !! "time")) events →
  (parse_fcd_from events timestep).2 = None
  ∧ length (parse_fcd_from events timestep).1
    = length (filter (fun ev => is_timestep_end ev = true) events).
Proof.
  induction events as [|[event elem] events IH]; intros timestep Hall; [done|].
  apply Forall_cons in Hall as [Hev Hall]. cbn [parse_fcd_from].
  pose proof (eq_refl : is_timestep_end (event, elem)
                        = bool_decide (tag elem = "timestep" ∧ event = "end")) as Hdef.
  rewrite filter_cons.
  destruct (bool_decide (tag elem = "vehicle" ∧ event = "end")) eqn:Hv.
  - apply bool_decide_eq_true in Hv as [Hv _].
    rewrite bool_decide_eq_false_2 in Hdef by (rewrite Hv; intros [? _]; discriminate).
    rewrite decide_False by (rewrite Hdef; discriminate). by apply IH.
  - destruct (bool_decide (tag elem = "timestep" ∧ event = "end")).
    + rewrite decide_True by done. destruct Hev as [time Htime]; [done|].
      simpl in Htime. rewrite Htime.
      destruct (IH [] Hall) as [He Hlen].
      destruct (parse_fcd_from events []) as [ys e]. simpl in *. by rewrite Hlen.
    + rewrite decide_False by (rewrite Hdef; discriminate). by apply IH.
Qed.

(** X13: when every timestep element has a time, the generator ends
    without an exception after one yield per timestep element. *)
Theorem parse_fcd_one_yield_per_timestep events :
  Forall (fun ev => is_timestep_end ev = true → is_Some (attrib ev.2 !! "time")) events →
  (parse_fcd events).2 = None
  ∧ length (parse_fcd events).1
    = length (filter (fun ev => is_timestep_end ev = true) events).
Proof. intros Hall. by apply parse_fcd_from_count. Qed.

End ParseFcd.

Lemma parse_fcd_timestep_witness :
  parse_fcd (take 2 sample_events
             ++ ("end", mkElem "timestep" {[ "time" := "0.00" ]}) :: drop 3 sample_events)
  = (("0.00", vehicles_of (take 2 sample_events)) :: (parse_fcd (drop 3 sample_events)).1,
     (parse_fcd (drop 3 sample_events)).2).
Proof.
  apply parse_fcd_timestep.
  - repeat constructor.
  - reflexivity.
  - reflexivity.
Defined.

Lemma parse_fcd_trailing_dropped_witness :
  parse_fcd (take 5 sample_events ++ drop 5 sample_events)
  = parse_fcd (take 5 sample_events).
Proof.
  apply parse_fcd_trailing_dropped. repeat constructor.
Defined.

Lemma parse_fcd_one_yield_per_timestep_witness :
  (parse_fcd sample_events).2 = None
  ∧ length (parse_fcd sample_events).1
    = length (filter (fun ev => is_timestep_end ev = true) sample_events).
Proof.
  apply parse_fcd_one_yield_per_timestep.
  repeat constructor; vm_compute; (discriminate || eauto).
Defined.

(** ** The lane-distribution parser *)

Section ParseLaneDistr.
Context {V : Type}.
Variable literal_eval : string → option V.
Implicit Types lines body block tail : list string.

#[local] Abbreviation loop := (parse_lane_distr_loop literal_eval).

Lemma loop_rows_silent block tail : ∀ data,
  Forall (fun line => is_terminator line = false ∧ is_separator line = false
                      ∧ row_ok literal_eval line) block →
  ends_here tail →
  loop (block ++ tail) data = ([], None).
Proof.
  induction block as [|line block IH]; intros data Hblock Htail.
  - destruct tail as [|line tail]; [done|]. simpl in *.
    unfold is_terminator in Htail. by rewrite Htail.
  - apply Forall_cons in Hblock as [(Ht & Hs & [v Hv]) Hblock].
    unfold is_terminator, is_separator in *. cbn [app parse_lane_distr_loop].
    rewrite Ht, Hs. simpl. rewrite Hv. by apply IH.
Qed.

Lemma loop_app_silent body tail : ∀ data,
  (∀ data', loop tail data' = ([], None)) →
  loop (body ++ tail) data = loop body data.
Proof.
  induction body as [|line body IH]; intros data Htail; [by rewrite Htail|].
  cbn [app parse_lane_distr_loop].
  destruct (String.prefix "]]" line); [done|].
  destruct (negb (String.prefix "], [" line)).
  - destruct (literal_eval _); [by apply IH|done].
  - by rewrite IH.
Qed.


Lemma loop_count body : ∀ data,
  Forall (fun line => is_terminator line = false
                      ∧ (is_separator line = false → row_ok literal_eval line)) body →
  (loop body data).2 = None
  ∧ length (loop body data).1 = length (filter (fun line => is_separator line = true) body).
Proof.
  induction body as [|line body IH]; intros data Hbody; [done|].
  apply Forall_cons in Hbody as [[Ht Hrow] Hbody].
  cbn [parse_lane_distr_loop]. rewrite filter_cons.
  rewrite (Ht : String.prefix "]]" line = false).
  pose proof (eq_refl : is_separator line = String.prefix "], [" line) as Hdef.
  destruct (String.prefix "], [" line); cbn [negb].
  - rewrite decide_True by done.
    destruct (IH [Header (replace_str "], [" "" None line)] Hbody) as [He Hlen].
    destruct (loop body _) as [ys e]. simpl in *. by rewrite Hlen.
  - rewrite decide_False by (rewrite Hdef; discriminate).
    destruct Hrow as [v Hv]; [done|]. unfold row_ok in Hv. rewrite Hv.
    by apply IH.
Qed.


End ParseLaneDistr.



(** ** The configuration file *)

Section ConfigFileFacts.
Variable path_join : string → string → string.

Lemma string_app_nil_r (s : string) : s +:+ "" = s.
Proof.
  induction s as [|c s IH]; [done|].
  change (String c (s +:+ "") = String c s). by rewrite IH.
Qed.

Lemma string_app_assoc (a b c : string) : (a +:+ b) +:+ c = a +:+ (b +:+ c).
Proof.
  induction a as [|x a IH]; [done|].
  change (String x ((a +:+ b) +:+ c) = String x (a +:+ (b +:+ c))). by rewrite IH.
Qed.

Lemma re_split_from_nonempty b s : re_split_from b s ≠ [].
Proof.
  revert b. induction s as [|c s IH]; intros b; simpl; [done|].
  destruct (is_sep c).
  - destruct b; [apply IH|done].
  - by destruct (re_split_from false s).
Qed.

Lemma string_app_cons (c : ascii) (a b : string) : String c a +:+ b = String c (a +:+ b).
Proof. reflexivity. Qed.

(** A stretch without separators joins the piece that follows it. *)
Lemma re_split_from_name (w s : string) :
  all_chars (fun c => negb (is_sep c)) w = true →
  re_split_from false (w +:+ s) = cons_head w (re_split_from false s).
Proof.
  pose proof (re_split_from_nonempty false s) as Hne.
  induction w as [|c w IH].
  - intros _. change ("" +:+ s) with s. by destruct (re_split_from false s).
  - cbn [all_chars]. intros [Hc Hw]%andb_prop. apply negb_true_iff in Hc.
    rewrite string_app_cons. cbn [re_split_from]. rewrite Hc, (IH Hw).
    by destruct (re_split_from false s).
Qed.

Lemma re_split_from_run_true (p s : string) :
  all_chars is_sep p = true →
  re_split_from true (p +:+ s) = re_split_from true s.
Proof.
  induction p as [|c p IH]; [done|].
  cbn [all_chars]. intros [Hc Hp]%andb_prop.
  rewrite string_app_cons. cbn [re_split_from]. rewrite Hc. by apply IH.
Qed.

Lemma re_split_from_run (p s : string) :
  separator_run p →
  re_split_from false (p +:+ s) = "" :: re_split_from true s.
Proof.
  intros [Hne Hp]. destruct p as [|c p]; [done|]. cbn [all_chars] in Hp.
  apply andb_prop in Hp as [Hc Hp].
  rewrite string_app_cons. cbn [re_split_from]. rewrite Hc.
  by rewrite re_split_from_run_true.
Qed.

(** After a run, a name starts a piece like at the start of the text. *)
Lemma re_split_from_true_name (w s : string) :
  file_name w → re_split_from true (w +:+ s) = re_split_from false (w +:+ s).
Proof.
  intros [Hne Hw]. destruct w as [|c w]; [done|]. cbn [all_chars] in Hw.
  apply andb_prop in Hw as [Hc _]. apply negb_true_iff in Hc.
  rewrite string_app_cons. cbn [re_split_from]. by rewrite Hc.
Qed.

Lemma concat_with_head (p : string) names :
  names ≠ [] → Forall file_name names →
  ∃ w s, file_name w ∧ concat_with p names = w +:+ s.
Proof.
  intros Hne Hall. destruct names as [|w [|w' names]]; [done| |].
  - apply Forall_cons in Hall as [Hw _]. exists w, "". split; [done|].
    symmetry. apply string_app_nil_r.
  - apply Forall_cons in Hall as [Hw _]. exists w. eexists. split; [done|].
    reflexivity.
Qed.

Lemma re_split_concat_with (p : string) names :
  separator_run p → names ≠ [] → Forall file_name names →
  re_split (concat_with p names) = names.
Proof.
  intros Hp Hne Hall. unfold re_split.
  induction names as [|w names IH]; [done|].
  apply Forall_cons in Hall as [[Hwne Hw] Hall].
  destruct names as [|w' names].
  - cbn [concat_with]. rewrite <- (string_app_nil_r w) at 1.
    rewrite (re_split_from_name _ _ Hw). simpl. by rewrite string_app_nil_r.
  - change (concat_with p (w :: w' :: names))
      with (w +:+ p +:+ concat_with p (w' :: names)).
    rewrite (re_split_from_name _ _ Hw), (re_split_from_run _ _ Hp).
    destruct (concat_with_head p (w' :: names)) as (w2 & s & Hw2 & Heq); [done..|].
    rewrite Heq, (re_split_from_true_name _ _ Hw2), <- Heq, IH by done.
    simpl. by rewrite string_app_nil_r.
Qed.

Lemma re_split_name (w : string) : file_name w → re_split w = [w].
Proof.
  intros Hw. apply (re_split_concat_with " " [w]); [done|done|].
  by apply Forall_singleton.
Qed.

Lemma additional_paths_one_per_tag config_dir names :
  Forall file_name names →
  additional_paths path_join config_dir ((fun w => {[ "value" := w ]}) <$> names)
  = Ok (path_join config_dir <$> names).
Proof.
  induction 1 as [|w names Hw _ IH]; [done|].
  rewrite fmap_cons. cbn [additional_paths]. unfold getitem at 1.
  rewrite lookup_singleton_eq. cbn [mbind Res_bind]. rewrite IH. cbn [mbind Res_bind].
  by rewrite (re_split_name _ Hw).
Qed.

Lemma additional_paths_one_tag config_dir (value : string) :
  additional_paths path_join config_dir [ {[ "value" := value ]} ]
  = Ok (path_join config_dir <$> re_split value).
Proof.
  cbn [additional_paths]. unfold getitem. rewrite lookup_singleton_eq.
  cbn [mbind Res_bind]. by rewrite app_nil_r.
Qed.

(** X16: one [additional-files] element that lists its files in one
    [value], separated by spaces and commas, is read like one element per
    file, whatever the rest of the configuration. *)
Theorem parse_config_file_value_list config_dir net gui (p : string) names :
  separator_run p → names ≠ [] → Forall file_name names →
  parse_config_file path_join config_dir
    (mkSumoConfig (Some (mkInputConfig net (OneTag {[ "value" := concat_with p names ]}))) gui)
  = parse_config_file path_join config_dir
      (mkSumoConfig
         (Some (mkInputConfig net (ManyTags ((fun w => {[ "value" := w ]}) <$> names)))) gui).
Proof.
  intros Hp Hne Hall. unfold parse_config_file.
  cbn [input net_file_tag additional_files_tag gui_only mbind Res_bind].
  destruct net as [net_tag|];
    cbn [input net_file_tag additional_files_tag gui_only mbind Res_bind]; [|done].
  destruct (getitem net_tag "value") as [net_value|];
    cbn [input net_file_tag additional_files_tag gui_only mbind Res_bind]; [|done].
  rewrite bool_decide_eq_false_2
    by (intros Heq; apply (f_equal (fun m => m !! "value")) in Heq;
        rewrite lookup_singleton_eq, lookup_empty in Heq; discriminate).
  rewrite additional_paths_one_tag, (re_split_concat_with _ _ Hp Hne Hall).
  pose proof (additional_paths_one_per_tag config_dir names Hall) as Hpaths.
  assert (∃ d l, (fun w => ({[ "value" := w ]} : gmap string string)) <$> names = d :: l)
    as (d & l & Hdl) by (destruct names; [done|]; eauto).
  rewrite Hdl in Hpaths |- *. by rewrite Hpaths.
Qed.

(** X17: a value that ends in a separator names one more file, the empty
    name, which is joined to the directory like the others. *)
Theorem additional_paths_trailing_separator config_dir (p p' : string) names :
  separator_run p → separator_run p' → names ≠ [] → Forall file_name names →
  additional_paths path_join config_dir [ {[ "value" := concat_with p names +:+ p' ]} ]
  = Ok (path_join config_dir <$> (names ++ [""])%list).
Proof.
  intros Hp Hp' Hne Hall. rewrite additional_paths_one_tag. do 2 f_equal.
  unfold re_split. clear config_dir. induction names as [|w names IH]; [done|].
  apply Forall_cons in Hall as [[Hwne Hw] Hall].
  destruct names as [|w' names].
  - cbn [concat_with app]. rewrite (re_split_from_name _ _ Hw).
    rewrite <- (string_app_nil_r p'), (re_split_from_run _ _ Hp'). simpl.
    by rewrite string_app_nil_r.
  - change (concat_with p (w :: w' :: names))
      with (w +:+ p +:+ concat_with p (w' :: names)).
    rewrite !string_app_assoc, (re_split_from_name _ _ Hw), (re_split_from_run _ _ Hp).
    destruct (concat_with_head p (w' :: names)) as (w2 & s & Hw2 & Heq); [done..|].
    rewrite Heq, string_app_assoc, (re_split_from_true_name _ _ Hw2),
      <- string_app_assoc, <- Heq, IH by done.
    simpl. by rewrite string_app_nil_r.
Qed.

Lemma additional_paths_nonempty config_dir d l files :
  additional_paths path_join config_dir (d :: l) = Ok files → files ≠ [].
Proof.
  cbn [additional_paths].
  destruct (getitem d "value") as [value|]; cbn [mbind Res_bind]; [|discriminate].
  destruct (additional_paths path_join config_dir l); cbn [mbind Res_bind]; [|discriminate].
  intros [= <-]. pose proof (re_split_from_nonempty false value) as Hne.
  unfold re_split. destruct (re_split_from false value); [done|]. by rewrite fmap_cons.
Qed.

(** X18: the list of additional files is never returned empty: a
    configuration without additional files gives [None], and every list
    returned holds at least one path. *)
Theorem parse_config_file_additional_nonempty config_dir config net_file files settings_file :
  parse_config_file path_join config_dir config = Ok (net_file, Some files, settings_file) →
  files ≠ [].
Proof.
  unfold parse_config_file.
  destruct (input config) as [input_config|]; cbn [mbind Res_bind]; [|discriminate].
  destruct (net_file_tag input_config) as [net_tag|]; cbn [mbind Res_bind]; [|discriminate].
  destruct (getitem net_tag "value"); cbn [mbind Res_bind]; [|discriminate].
  destruct (additional_files_tag input_config) as [|d|[|d l]]; cbn [mbind Res_bind].
  - destruct (match gui_only config with Some _ => _ | None => _ end);
      cbn [mbind Res_bind]; [|discriminate]. discriminate.
  - case_bool_decide; cbn [mbind Res_bind].
    + destruct (match gui_only config with Some _ => _ | None => _ end);
        cbn [mbind Res_bind]; discriminate.
    + destruct (additional_paths path_join config_dir [d]) as [fs|] eqn:Hfs;
        cbn [mbind Res_bind]; [|discriminate].
      destruct (match gui_only config with Some _ => _ | None => _ end);
        cbn [mbind Res_bind]; [|discriminate].
      intros [= _ <- _]. by eapply additional_paths_nonempty.
  - destruct (match gui_only config with Some _ => _ | None => _ end);
      cbn [mbind Res_bind]; discriminate.
  - destruct (additional_paths path_join config_dir (d :: l)) as [fs|] eqn:Hfs;
      cbn [mbind Res_bind]; [|discriminate].
    destruct (match gui_only config with Some _ => _ | None => _ end);
      cbn [mbind Res_bind]; [|discriminate].
    intros [= _ <- _]. by eapply additional_paths_nonempty.
Qed.

End ConfigFileFacts.

Lemma parse_config_file_value_list_witness :
  parse_config_file sample_path_join "cfg"
    (mkSumoConfig
       (Some (mkInputConfig (Some {[ "value" := "net.xml" ]})
                (OneTag {[ "value" := concat_with ", " ["a.add.xml"; "b.add.xml"] ]})))
       None)
  = parse_config_file sample_path_join "cfg"
      (mkSumoConfig
         (Some (mkInputConfig (Some {[ "value" := "net.xml" ]})
                  (ManyTags ((fun w => {[ "value" := w ]}) <$> ["a.add.xml"; "b.add.xml"]))))
         None).
Proof.
  apply parse_config_file_value_list.
  - split; [discriminate|reflexivity].
  - discriminate.
  - repeat constructor; discriminate.
Defined.

Lemma additional_paths_trailing_separator_witness :
  additional_paths sample_path_join "cfg"
    [ {[ "value" := concat_with " " ["a.add.xml"; "b.add.xml"] +:+ ", " ]} ]
  = Ok (sample_path_join "cfg" <$> (["a.add.xml"; "b.add.xml"] ++ [""])%list).
Proof.
  apply additional_paths_trailing_separator.
  - split; [discriminate|reflexivity].
  - split; [discriminate|reflexivity].
  - discriminate.
  - repeat constructor; discriminate.
Defined.

Lemma parse_config_file_additional_nonempty_witness :
  parse_config_file sample_path_join "cfg"
    (mkSumoConfig
       (Some (mkInputConfig (Some {[ "value" := "net.xml" ]})
                (OneTag {[ "value" := "a.add.xml" ]}))) None)
  = Ok ("cfg/net.xml", Some ["cfg/a.add.xml"], None)
  ∧ ["cfg/a.add.xml"] ≠ [].
Proof.
  assert (parse_config_file sample_path_join "cfg"
            (mkSumoConfig
               (Some (mkInputConfig (Some {[ "value" := "net.xml" ]})
                        (OneTag {[ "value" := "a.add.xml" ]}))) None)
          = Ok ("cfg/net.xml", Some ["cfg/a.add.xml"], None)) as Hparse
    by (vm_compute; reflexivity).
  split; [exact Hparse|].
  exact (parse_config_file_additional_nonempty _ _ _ _ _ _ Hparse).
Defined.

(** ** The conversion scripts *)

Section DistributionsFacts.
Context {P : Type}.
Variable str : list P → string.
Implicit Types data : list (list (list P)).

Lemma write_lanes_ok data step : ∀ n i,
  (∀ row, row ∈ data → (step < length row)%nat) →
  (i + n ≤ length data)%nat →
  write_lanes str data step (seq i n) = (column str (take n (drop i data)) step, false).
Proof.
  induction n as [|n IH]; intros i Hrows Hlen; [done|].
  cbn [seq write_lanes]. unfold cell.
  destruct (data !! i) as [row|] eqn:Hi.
  2:{ apply lookup_ge_None in Hi. lia. }
  cbn [mbind option_bind].
  destruct (row !! step) as [x|] eqn:Hx.
  2:{ apply lookup_ge_None in Hx.
      assert (row ∈ data) as Hin by (by eapply list_elem_of_lookup_2).
      specialize (Hrows row Hin). lia. }
  rewrite (IH (S i)) by (done || lia).
  rewrite (drop_S _ _ _ Hi). unfold column. cbn [take omap list_omap]. by rewrite Hx.
Qed.

Lemma write_steps_ok data steps :
  (∀ step row, step ∈ steps → row ∈ data → (step < length row)%nat) →
  write_steps str data (length data) steps
  = (flat_map (fun step => column str data step ++ ["-"])%list steps, false).
Proof.
  induction steps as [|step steps IH]; intros Hrows; [done|].
  cbn [write_steps flat_map].
  rewrite (write_lanes_ok data step (length data) 0).
  - rewrite drop_0, firstn_all, IH.
    + by rewrite <- app_assoc.
    + intros st row Hst Hrow. apply Hrows; [by right|done].
  - intros row Hrow. apply Hrows; [by left|done].
  - lia.
Qed.

(** X19: for lane data in which no lane is shorter than the first, the
    script writes the transposed table: for every timestep of the first
    lane, in order, one line per lane with that lane's entry, and then a
    line "-".  Entries of longer lanes beyond that length are left out. *)
Theorem distributions_parser_transposes data lane0 :
  head data = Some lane0 →
  lane0 ≠ [] →
  (∀ row, row ∈ data → (length lane0 ≤ length row)%nat) →
  distributions_parser str data
  = (flat_map (fun step => column str data step ++ ["-"])%list (seq 0 (length lane0)), false)
  ∧ ∀ step, (step < length lane0)%nat → length (column str data step) = length data.
Proof.
  intros Hhead Hne Hrows.
  destruct data as [|l data]; [done|]. injection Hhead as ->.
  destruct lane0 as [|x lane0]; [done|]. split.
  - unfold distributions_parser.
    apply (write_steps_ok ((x :: lane0) :: data)).
    intros step row Hstep Hrow. apply elem_of_seq in Hstep. specialize (Hrows row Hrow). lia.
  - intros step Hstep. unfold column.
    generalize dependent ((x :: lane0) :: data). intros d Hd.
    induction d as [|row d IH]; [done|].
    cbn [omap list_omap]. destruct (row !! step) as [y|] eqn:Hy.
    + simpl. rewrite IH; [done|]. intros r Hr. apply Hd. by right.
    + apply lookup_ge_None in Hy. specialize (Hd row). 
      assert (row ∈ row :: d) as Hin by (by left). specialize (Hd Hin). lia.
Qed.

Lemma write_lanes_fails data step lanes (lane : nat) :
  lane ∈ lanes → cell data lane step = None →
  (write_lanes str data step lanes).2 = true.
Proof.
  induction lanes as [|l lanes IH]; intros Hin Hcell; [by apply elem_of_nil in Hin|].
  cbn [write_lanes]. destruct (cell data l step) as [y|] eqn:Hl; [|done].
  apply elem_of_cons in Hin as [->|Hin]; [congruence|].
  specialize (IH Hin Hcell). by destruct (write_lanes str data step lanes).
Qed.

Lemma write_steps_fails data n_lanes steps (lane step : nat) :
  step ∈ steps → (lane < n_lanes)%nat → cell data lane step = None →
  (write_steps str data n_lanes steps).2 = true.
Proof.
  induction steps as [|s steps IH]; intros Hin Hlane Hcell; [by apply elem_of_nil in Hin|].
  cbn [write_steps].
  destruct (write_lanes str data s (seq 0 n_lanes)) as [w failed] eqn:Hw.
  destruct failed; [done|].
  apply elem_of_cons in Hin as [->|Hin].
  - pose proof (write_lanes_fails data s (seq 0 n_lanes) lane) as Hf.
    rewrite Hw in Hf. simpl in Hf. discriminate Hf; [|done]. apply elem_of_seq. lia.
  - specialize (IH Hin Hlane Hcell). by destruct (write_steps str data n_lanes steps).
Qed.

(** X20: a lane that is shorter than the first one ends the script with
    an [IndexError]; what was written up to that point stays in the
    output file. *)
Theorem distributions_parser_ragged data lane0 (lane : nat) row :
  head data = Some lane0 →
  data !! lane = Some row →
  (length row < length lane0)%nat →
  (distributions_parser str data).2 = true.
Proof.
  intros Hhead Hlane Hshort.
  destruct data as [|l data]; [done|]. injection Hhead as ->.
  destruct lane0 as [|x lane0]; [simpl in Hshort; lia|].
  unfold distributions_parser.
  apply (write_steps_fails _ _ _ lane (length row)).
  - apply elem_of_seq. lia.
  - by eapply lookup_lt_Some.
  - unfold cell. rewrite Hlane. cbn [mbind option_bind]. by apply lookup_ge_None.
Qed.

End DistributionsFacts.

Section InvertFacts.
Context {K V : Type} `{Countable V}.
Implicit Types items : list (K * V).

Lemma invert_from_other items : ∀ (acc : gmap V K) (v : V),
  v ∉ items.*2 →
  foldl (fun m kv => <[kv.2 := kv.1]> m) acc items !! v = acc !! v.
Proof.
  induction items as [|[k' v'] items IH]; intros acc v Hv; [done|].
  rewrite fmap_cons in Hv. apply not_elem_of_cons in Hv as [Hne Hv].
  cbn [foldl]. rewrite IH by done. simpl. by rewrite lookup_insert_ne.
Qed.

Lemma invert_from_last pre (k : K) (v : V) post : ∀ (acc : gmap V K),
  v ∉ post.*2 →
  foldl (fun m kv => <[kv.2 := kv.1]> m) acc (pre ++ (k, v) :: post) !! v = Some k.
Proof.
  intros acc Hv. rewrite foldl_app. cbn [foldl].
  rewrite invert_from_other by done. simpl. apply lookup_insert_eq.
Qed.

Lemma invert_from_elem items : ∀ (acc : gmap V K) (k : K) (v : V),
  foldl (fun m kv => <[kv.2 := kv.1]> m) acc items !! v = Some k →
  acc !! v = Some k ∨ (k, v) ∈ items.
Proof.
  induction items as [|[k' v'] items IH]; intros acc k v; [by left|].
  cbn [foldl]. intros [Hacc|Hin]%IH.
  - simpl in Hacc. rewrite lookup_insert in Hacc. case_decide as Hd.
    + injection Hacc as <-. subst. right. by left.
    + by left.
  - right. by right.
Qed.

(** X21: the inverted table maps an id to the index of the last item that
    carries it, and holds nothing that is not an item turned around; with
    pairwise distinct ids it is the exact inverse. *)
Theorem invert_items_last_wins items :
  (∀ pre (k : K) (v : V) post,
     items = (pre ++ (k, v) :: post)%list → v ∉ post.*2 →
     invert_items items !! v = Some k)
  ∧ (∀ (k : K) (v : V), invert_items items !! v = Some k → (k, v) ∈ items)
  ∧ (NoDup items.*2 →
     ∀ (k : K) (v : V), invert_items items !! v = Some k ↔ (k, v) ∈ items).
Proof.
  unfold invert_items. split; [|split].
  - intros pre k v post -> Hv. by apply invert_from_last.
  - intros k v [Hacc|Hin]%invert_from_elem; [|done]. by rewrite lookup_empty in Hacc.
  - intros Hnd k v. split.
    + intros [Hacc|Hin]%invert_from_elem; [|done]. by rewrite lookup_empty in Hacc.
    + intros (pre & post & ->)%list_elem_of_split.
      apply invert_from_last.
      rewrite fmap_app, fmap_cons in Hnd. apply NoDup_app in Hnd as (_ & _ & Hnd).
      by apply NoDup_cons in Hnd as [Hv _].
Qed.

End InvertFacts.

Lemma distributions_parser_transposes_witness :
  distributions_parser sample_str sample_distributions
  = (flat_map (fun step => column sample_str sample_distributions step ++ ["-"])%list
       (seq 0 (length [[1; 0]; [0; 1]; [1; 1]])), false)
  ∧ ∀ step, (step < length [[1; 0]; [0; 1]; [1; 1]])%nat →
            length (column sample_str sample_distributions step)
            = length sample_distributions.
Proof.
  apply (distributions_parser_transposes sample_str sample_distributions
           [[1; 0]; [0; 1]; [1; 1]]).
  - reflexivity.
  - discriminate.
  - intros row Hrow. unfold sample_distributions in Hrow.
    repeat (apply elem_of_cons in Hrow as [->|Hrow]; [simpl; lia|]).
    by apply elem_of_nil in Hrow.
Defined.

Lemma distributions_parser_ragged_witness :
  (distributions_parser sample_str (sample_distributions ++ [[[1; 1]]])).2 = true.
Proof.
  apply (distributions_parser_ragged sample_str (sample_distributions ++ [[[1; 1]]])
           [[1; 0]; [0; 1]; [1; 1]] 2 [[1; 1]]).
  - reflexivity.
  - reflexivity.
  - simpl. lia.
Defined.

(** ** Simulation controller, further *)

Section ControllerInvariants.
Context `{PyFloat}.
Variable current_scenario : Scenario.
Variable fcd_log : list (string * list (gmap string string)).
Variable lane_log : list (list string).

#[local] Abbreviation on_message := (on_message current_scenario fcd_log lane_log).
#[local] Abbreviation step := (step current_scenario fcd_log lane_log).
#[local] Abbreviation run := (run current_scenario fcd_log lane_log).
#[local] Abbreviation new_task := (new_task current_scenario fcd_log lane_log).

(** The branches of one iteration of a tick loop. *)
Ltac tick_cases i send_ok st :=
  unfold tick;
  destruct (tasks st !! i) as [[[[|[? ?] ?]|] [[|? ?]|] []]|] eqn:?Hi; simpl; try done;
  destruct (decide (simulation_status st = STATUS_RUNNING)); simpl; try done;
  try (destruct (read_next_step _ _ _) as [[? ?]|]; simpl; try done);
  destruct send_ok; simpl; try done.

(** What an iteration never writes. *)
Lemma tick_control i send_ok (st : State) :
  simulation_status (tick i send_ok st) = simulation_status st
  ∧ delay_length_ms (tick i send_ok st) = delay_length_ms st
  ∧ handler (tick i send_ok st) = handler st
  ∧ task (tick i send_ok st) = task st
  ∧ last_lights (tick i send_ok st) = last_lights st
  ∧ start_sumo_calls (tick i send_ok st) = start_sumo_calls st
  ∧ stop_sumo_calls (tick i send_ok st) = stop_sumo_calls st
  ∧ length (tasks (tick i send_ok st)) = length (tasks st).
Proof.
  tick_cases i send_ok st; rewrite ?length_insert; done.
Qed.

(** The branches of one turn of the message loop. *)
Ltac recv_cases msg send_ok st :=
  simpl;
  destruct (handler st) eqn:?Hh; try done;
  destruct msg as [[?ty|] [?a|] ?d| | |]; simpl; try done;
  try (case_decide; try done);
  try unfold action; repeat case_decide;
  try match goal with d : option Z |- _ => destruct d end;
  destruct send_ok; simpl; try done.

(** What one event adds to the socket, and its share of [next] calls. *)
Lemma step_effect ev (st : State) :
  (∃ out, sent (step ev st) = sent st ++ out)%list
  ∧ (snapshots (step ev st) + next_calls st ≤ snapshots st + next_calls (step ev st))%nat
  ∧ (next_calls st ≤ next_calls (step ev st))%nat.
Proof.
  destruct ev as [msg send_ok|i send_ok].
  - pose proof (cleanup_cursors (task st) (is_live current_scenario)
                  (set_status STATUS_OFF st)) as (_ & _ & Hn & Hsent).
    simpl in Hn, Hsent.
    recv_cases msg send_ok st; destruct (is_live current_scenario);
      unfold snapshots; simpl;
      rewrite ?Hn, ?Hsent, ?filter_app, ?length_app; simpl;
      (split; [first [by exists [] ; rewrite app_nil_r | by eexists]|lia]).
  - change (step (Tick i send_ok) st) with (tick i send_ok st).
    tick_cases i send_ok st; unfold snapshots; simpl;
      rewrite ?filter_app, ?length_app; simpl;
      (split; [first [by exists [] ; rewrite app_nil_r | by eexists]|lia]).
Qed.

Lemma run_cons ev evs (st : State) : run (ev :: evs) st = run evs (step ev st).
Proof. reflexivity. Qed.

(** X22: the tick loops never write the controller's state: along any
    number of iterations of any tasks, the status, the delay, the
    handler and its task variable, the light cache and the start and stop
    counters stay as they were, and no task is created or removed. *)
Theorem ticks_never_write_control (evs : list event) (st : State) :
  Forall (fun ev => is_tick ev = true) evs →
  simulation_status (run evs st) = simulation_status st
  ∧ delay_length_ms (run evs st) = delay_length_ms st
  ∧ handler (run evs st) = handler st
  ∧ task (run evs st) = task st
  ∧ last_lights (run evs st) = last_lights st
  ∧ start_sumo_calls (run evs st) = start_sumo_calls st
  ∧ stop_sumo_calls (run evs st) = stop_sumo_calls st
  ∧ length (tasks (run evs st)) = length (tasks st).
Proof.
  intros Hticks. revert st.
  induction Hticks as [|[msg ok|i ok] evs Hev _ IH]; intros st; [done|done|].
  rewrite run_cons. change (step (Tick i ok) st) with (tick i ok st).
  destruct (IH (tick i ok st)) as (-> & -> & -> & -> & -> & -> & -> & ->).
  apply tick_control.
Qed.


(** X24: every snapshot sent is paid for by a call of [next] on the
    trajectory log: along any run, the number of snapshots grows by no
    more than the number of such calls. *)
Theorem snapshots_bounded_by_next_calls (evs : list event) (st : State) :
  (snapshots (run evs st) + next_calls st ≤ snapshots st + next_calls (run evs st))%nat.
Proof.
  revert st. induction evs as [|ev evs IH]; intros st; [done|].
  rewrite run_cons. destruct (step_effect ev st) as (_ & Hstep & _).
  specialize (IH (step ev st)). lia.
Qed.

(** *** A scenario without a trajectory log *)

Lemma cursors_insert_same (l : list Task) i fp lp ts ts' :
  l !! i = Some (mkTask fp lp ts) →
  fcd_parser <$> <[i := mkTask fp lp ts']> l = fcd_parser <$> l.
Proof.
  intros Hi. rewrite list_fmap_insert. apply list_insert_id.
  by rewrite list_lookup_fmap, Hi.
Qed.

Lemma live_step ev (st : State) :
  truthy (fcd_file current_scenario) = false →
  Forall (fun p => p = None) (fcd_parser <$> tasks st) →
  Forall (fun p => p = None) (fcd_parser <$> tasks (step ev st))
  ∧ snapshots (step ev st) = snapshots st
  ∧ next_calls (step ev st) = next_calls st.
Proof.
  intros Hfcd Hnone. destruct ev as [msg send_ok|i send_ok].
  - pose proof (cleanup_cursors (task st) (is_live current_scenario)
                  (set_status STATUS_OFF st)) as (Hc & _ & Hn & Hsent).
    simpl in Hc, Hn, Hsent.
    assert (fcd_parser new_task = None) as Hnew.
    { simpl. by rewrite Hfcd. }
    recv_cases msg send_ok st; destruct (is_live current_scenario);
      unfold snapshots; simpl;
      rewrite ?Hn, ?Hsent, ?Hc, ?filter_app, ?length_app, ?fmap_app; simpl;
      (split; [|lia]); try done;
      (apply Forall_app; split; [done|]); by apply Forall_singleton.
  - change (step (Tick i send_ok) st) with (tick i send_ok st).
    assert (∀ t, tasks st !! i = Some t → fcd_parser t = None) as Hlook.
    { intros t Ht. eapply (Forall_lookup_1 _ _ i) in Hnone; [exact Hnone|].
      by rewrite list_lookup_fmap, Ht. }
    tick_cases i send_ok st;
      try (by (specialize (Hlook _ eq_refl); discriminate));
      (split; [|done]); by erewrite cursors_insert_same.
Qed.

(** X25: on a scenario without a trajectory log no snapshot is ever
    sent.  The tick loop takes the branch of the live engine, which calls
    [simulate_next_step()] without its two arguments: the first iteration
    that finds the status RUNNING ends the task with [TypeError]. *)
Theorem live_scenario_never_streams (evs : list event) (st : State) :
  truthy (fcd_file current_scenario) = false →
  Forall (fun p => p = None) (fcd_parser <$> tasks st) →
  snapshots (run evs st) = snapshots st
  ∧ next_calls (run evs st) = next_calls st
  ∧ ∀ i t send_ok,
      tasks (run evs st) !! i = Some t → task_state t = Pending →
      simulation_status (run evs st) = STATUS_RUNNING →
      task_state <$> tasks (tick i send_ok (run evs st)) !! i = Some (Failed TypeError).
Proof.
  intros Hfcd. revert st. induction evs as [|ev evs IH]; intros st Hnone.
  - split; [done|]. split; [done|]. intros i t send_ok Hi Ht Hs.
    change (run [] st) with st in *.
    assert (fcd_parser t = None) as Hp.
    { eapply (Forall_lookup_1 _ _ i) in Hnone; [exact Hnone|].
      by rewrite list_lookup_fmap, Hi. }
    pose proof (lookup_lt_Some _ _ _ Hi) as Hlt.
    unfold tick. rewrite Hi, Ht, decide_True, Hp by done.
    simpl. by rewrite list_lookup_insert_eq.
  - rewrite run_cons. destruct (live_step ev st Hfcd Hnone) as (Hnone' & <- & <-).
    by apply IH.
Qed.

(** *** Without a live tick loop *)

Lemma live_tasks_zero (st : State) :
  live_tasks st = 0%nat ↔ Forall (fun ts => ts ≠ Pending) (task_state <$> tasks st).
Proof.
  unfold live_tasks. induction (tasks st) as [|t l IH]; [done|].
  rewrite filter_cons, fmap_cons, Forall_cons. case_decide as Hp.
  - unfold is_pending in Hp. apply bool_decide_eq_true in Hp.
    simpl. split; [lia|]. by intros [? _].
  - assert (task_state t ≠ Pending) as Hne.
    { intros Heq. apply Hp. unfold is_pending. by apply bool_decide_eq_true_2. }
    rewrite IH. tauto.
Qed.

Lemma states_insert (l : list Task) i fp lp ts :
  Forall (fun ts => ts ≠ Pending) (task_state <$> l) →
  ts ≠ Pending →
  Forall (fun ts => ts ≠ Pending) (task_state <$> <[i := mkTask fp lp ts]> l).
Proof.
  intros Hl Hts. rewrite list_fmap_insert. by apply Forall_insert.
Qed.

Lemma cleanup_states h live (st : State) :
  Forall (fun ts => ts ≠ Pending) (task_state <$> tasks st) →
  Forall (fun ts => ts ≠ Pending)
    (task_state <$> tasks (cleanup_sumo_simulation h live st)).
Proof.
  intros Hl. unfold cleanup_sumo_simulation, cancel_task. destruct h as [i|]; [|done].
  destruct (tasks st !! i) as [t|]; [destruct (task_state t)|];
    destruct live; simpl; try done; by apply states_insert.
Qed.

Lemma idle_step ev (st : State) :
  is_start ev = false →
  Forall (fun ts => ts ≠ Pending) (task_state <$> tasks st) →
  Forall (fun ts => ts ≠ Pending) (task_state <$> tasks (step ev st))
  ∧ snapshots (step ev st) = snapshots st.
Proof.
  intros Hstart Hidle. destruct ev as [msg send_ok|i send_ok].
  - pose proof (cleanup_cursors (task st) (is_live current_scenario)
                  (set_status STATUS_OFF st)) as (_ & _ & _ & Hsent).
    pose proof (cleanup_states (task st) (is_live current_scenario)
                  (set_status STATUS_OFF st) Hidle) as Hclean.
    simpl in Hsent, Hclean.
    recv_cases msg send_ok st;
      try (simpl in Hstart; rewrite bool_decide_eq_true_2 in Hstart by done; discriminate);
      unfold snapshots; simpl; rewrite ?Hsent, ?filter_app, ?length_app; simpl;
      (split; [done|lia]).
  - change (step (Tick i send_ok) st) with (tick i send_ok st).
    assert (∀ t, tasks st !! i = Some t → task_state t ≠ Pending) as Hlook.
    { intros t Ht. eapply (Forall_lookup_1 _ _ i) in Hidle; [exact Hidle|].
      by rewrite list_lookup_fmap, Ht. }
    tick_cases i send_ok st; by (specialize (Hlook _ eq_refl)).
Qed.

(** X26: while no tick loop is live, only a start brings snapshots back.
    After a cancel, or after the loop has died or returned, a resume sets
    the status to RUNNING but nothing is sent. *)
Theorem no_stream_without_start (evs : list event) (st : State) :
  live_tasks st = 0%nat →
  Forall (fun ev => is_start ev = false) evs →
  snapshots (run evs st) = snapshots st ∧ live_tasks (run evs st) = 0%nat.
Proof.
  intros Hidle Hevs. apply live_tasks_zero in Hidle. revert st Hidle.
  induction Hevs as [|ev evs Hev _ IH]; intros st Hidle.
  - split; [done|]. by apply live_tasks_zero.
  - rewrite run_cons. destruct (idle_step ev st Hev Hidle) as [Hidle' <-].
    by apply IH.
Qed.

(** *** After the handler has ended *)

Lemma tick_state_messages i send_ok (st : State) :
  state_messages (tick i send_ok st) = state_messages st.
Proof.
  unfold state_messages.
  tick_cases i send_ok st; rewrite filter_app; simpl; by rewrite app_nil_r.
Qed.


(** X28: when the lane-distribution log runs out before the trajectory
    log, the iteration has already read the timestep and replaced the
    cached frame when [next] raises: the task dies of [RuntimeError], the
    snapshot of that timestep is never sent, and the cache no longer
    matches what the viewer has seen. *)
Theorem lane_log_exhausted_loses_frame i send_ok (st : State) ts rest :
  tasks st !! i = Some (mkTask (Some (ts :: rest)) (Some []) Pending) →
  simulation_status st = STATUS_RUNNING →
  readable ts →
  task_state <$> tasks (tick i send_ok st) !! i = Some (Failed RuntimeError)
  ∧ sent (tick i send_ok st) = sent st
  ∧ ∃ snapshot, read_next_step ts.1 ts.2 (last_vehicles st)
                = Ok (snapshot, last_vehicles (tick i send_ok st)).
Proof.
  intros Hi Hs Hr. pose proof (lookup_lt_Some _ _ _ Hi) as Hlt.
  destruct (readable_any_last ts (last_vehicles st) Hr) as (snap & vs & Hread).
  rewrite Hread. unfold tick. rewrite Hi. cbn [task_state fcd_parser lane_distr_parser].
  rewrite decide_True by done. destruct ts as [timestep vehicles].
  cbn [last_vehicles count_next]. simpl in Hread. rewrite Hread.
  cbn -[lookup insert]. rewrite list_lookup_insert_eq by done. eauto.
Qed.

(** *** A second start *)

Lemma start_step_fields (st : State) :
  handler st = Serving →
  let st' := step (do_action "start") st in
  handler st' = Serving
  ∧ task st' = Some (length (tasks st))
  ∧ tasks st' = (tasks st ++ [new_task])%list
  ∧ snapshots st' = snapshots st.
Proof.
  intros Hh st'. subst st'.
  rewrite (start_step current_scenario fcd_log lane_log st) by done.
  destruct st as [s dl lv ll h tks out hs n1 n2 n3]. simpl in Hh. subst hs.
  unfold snapshots.
  destruct (is_live current_scenario); simpl; rewrite filter_app, length_app; simpl;
    repeat split; lia.
Qed.

Lemma cancel_step_fields (st : State) j t :
  handler st = Serving →
  task st = Some j →
  tasks st !! j = Some t →
  task_state t = Pending →
  let st' := step (do_action "cancel") st in
  handler st' = Serving
  ∧ tasks st' = <[j := mkTask (fcd_parser t) (lane_distr_parser t) Cancelled]> (tasks st)
  ∧ snapshots st' = snapshots st.
Proof.
  intros Hh Hj Ht Hp st'. subst st'.
  destruct st as [s dl lv ll h tks out hs n1 n2 n3]. simpl in Hh, Hj, Ht. subst hs h.
  unfold do_action, snapshots. simpl. unfold cancel_task. simpl. rewrite Ht, Hp.
  destruct (is_live current_scenario); simpl; rewrite filter_app, length_app; simpl;
    repeat split; lia.
Qed.

Lemma resume_step_fields (st : State) :
  handler st = Serving →
  let st' := step (do_action "resume") st in
  simulation_status st' = STATUS_RUNNING
  ∧ tasks st' = tasks st
  ∧ snapshots st' = snapshots st.
Proof.
  intros Hh st'. subst st'.
  destruct st as [s dl lv ll h tks out hs n1 n2 n3]. simpl in Hh. subst hs.
  unfold snapshots. simpl. rewrite filter_app, length_app. simpl.
  repeat split; lia.
Qed.

(** X29: a second start leaves the first tick loop behind: the cancel
    that follows stops only the second loop, and a resume then brings the
    first one back, which streams from the head of its own cursor. *)
Theorem second_start_leaks_first_loop (st : State) ts rest :
  handler st = Serving →
  truthy (fcd_file current_scenario) = true →
  fcd_log = ts :: rest →
  readable ts →
  (truthy (lane_distr_file current_scenario) = true → lane_log ≠ []) →
  let i := length (tasks st) in
  let st' := run [do_action "start"; do_action "start"; do_action "cancel";
                  do_action "resume"] st in
  simulation_status st' = STATUS_RUNNING
  ∧ task_state <$> tasks st' !! i = Some Pending
  ∧ task_state <$> tasks st' !! S i = Some Cancelled
  ∧ snapshots st' = snapshots st
  ∧ snapshots (step (Tick i true) st') = S (snapshots st).
Proof.
  intros Hh Hfcd Hlog Hr Hlane i st'.
  assert (∃ lp, new_task = mkTask (Some (ts :: rest)) lp Pending ∧ lp ≠ Some []) as
    (lp & Hnew & Hlp).
  { assert (new_task
            = mkTask (if truthy (fcd_file current_scenario) then Some fcd_log else None)
                (if truthy (lane_distr_file current_scenario) then Some lane_log
                 else None) Pending) as -> by reflexivity.
    rewrite Hfcd, Hlog. eexists. split; [done|].
    destruct (truthy (lane_distr_file current_scenario)); [|done].
    intros [= Heq]. by apply Hlane. }
  subst st'. rewrite !run_cons.
  destruct (start_step_fields st Hh) as (Hh1 & Hk1 & Ht1 & Hs1).
  set (st1 := step (do_action "start") st) in *.
  destruct (start_step_fields st1 Hh1) as (Hh2 & Hk2 & Ht2 & Hs2).
  set (st2 := step (do_action "start") st1) in *.
  rewrite Ht1 in Ht2, Hk2. rewrite length_app, Nat.add_1_r in Hk2. fold i in Hk2.
  assert (tasks st2 !! S i = Some new_task) as Hl2.
  { rewrite Ht2. rewrite lookup_app_r; rewrite length_app, Nat.add_1_r; [|done].
    by rewrite Nat.sub_diag. }
  destruct (cancel_step_fields st2 (S i) new_task Hh2 Hk2 Hl2) as (Hh3 & Ht3 & Hs3).
  { by rewrite Hnew. }
  set (st3 := step (do_action "cancel") st2) in *.
  destruct (resume_step_fields st3 Hh3) as (Hr4 & Ht4 & Hs4).
  set (st4 := step (do_action "resume") st3) in *.
  change (run [] st4) with st4.
  assert (tasks st4 !! i = Some (mkTask (Some (ts :: rest)) lp Pending)) as Hi.
  { rewrite Ht4, Ht3, list_lookup_insert_ne by lia. rewrite Ht2, <-Hnew.
    rewrite lookup_app_l by (rewrite length_app; simpl; lia).
    by rewrite lookup_app_r, Nat.sub_diag. }
  split; [done|]. split; [by rewrite Hi|]. split.
  { rewrite Ht4, Ht3, list_lookup_insert_eq; [done|].
    by apply lookup_lt_Some in Hl2. }
  split; [congruence|].
  destruct (tick_running_sends i st4 ts rest lp Hi Hr4 Hr Hlp) as (_ & _ & Hsn & _).
  change (step (Tick i true) st4) with (tick i true st4).
  rewrite Hsn. congruence.
Qed.

End ControllerInvariants.


Section ControllerInvariantExamples.
#[local] Existing Instance Decimal.decimal.
#[local] Existing Instance Decimal.decimal_float.

#[local] Abbreviation sample_step := (step sample_recorded sample_fcd_log []).
#[local] Abbreviation sample_run := (run sample_recorded sample_fcd_log []).

Lemma ticks_never_write_control_witness :
  let st := sample_run [do_action "start"; do_action "start"] initial in
  let evs := [Tick 0 true; Tick 1 false; Tick 0 true; Tick 2 true] in
  simulation_status (sample_run evs st) = simulation_status st
  ∧ delay_length_ms (sample_run evs st) = delay_length_ms st
  ∧ handler (sample_run evs st) = handler st
  ∧ task (sample_run evs st) = task st
  ∧ last_lights (sample_run evs st) = last_lights st
  ∧ start_sumo_calls (sample_run evs st) = start_sumo_calls st
  ∧ stop_sumo_calls (sample_run evs st) = stop_sumo_calls st
  ∧ length (tasks (sample_run evs st)) = length (tasks st).
Proof.
  apply (ticks_never_write_control sample_recorded sample_fcd_log []).
  repeat constructor.
Defined.

Lemma live_scenario_never_streams_witness :
  let evs := [do_action "start"; Tick 0 true; do_action "start"] in
  let st' := run sample_live sample_fcd_log [] evs initial in
  snapshots st' = snapshots initial
  ∧ next_calls st' = next_calls initial
  ∧ ∀ i t send_ok,
      tasks st' !! i = Some t → task_state t = Pending →
      simulation_status st' = STATUS_RUNNING →
      task_state <$> tasks (tick i send_ok st') !! i = Some (Failed TypeError).
Proof.
  apply (live_scenario_never_streams sample_live sample_fcd_log []).
  - reflexivity.
  - constructor.
Defined.

Lemma no_stream_without_start_witness :
  let evs := [Tick 0 true; do_action "resume"; Tick 0 true; do_action "cancel"] in
  snapshots (sample_run evs initial) = snapshots initial
  ∧ live_tasks (sample_run evs initial) = 0%nat.
Proof.
  apply (no_stream_without_start sample_recorded sample_fcd_log []).
  - reflexivity.
  - repeat constructor.
Defined.


Lemma lane_log_exhausted_loses_frame_witness :
  let st := step sample_lanes sample_fcd_log [] (do_action "start") initial in
  let st' := tick 0 true st in
  task_state <$> tasks st' !! 0%nat = Some (Failed RuntimeError)
  ∧ sent st' = sent st
  ∧ ∃ snapshot, read_next_step "0.00" [sample_vehicle] (last_vehicles st)
                = Ok (snapshot, last_vehicles st').
Proof.
  apply (lane_log_exhausted_loses_frame 0 true
           (step sample_lanes sample_fcd_log [] (do_action "start") initial)
           ("0.00", [sample_vehicle])
           [("1.00", [<["x" := "26.39"]> sample_vehicle]); ("2.00", [])]).
  - reflexivity.
  - reflexivity.
  - vm_compute. reflexivity.
Defined.

Lemma second_start_leaks_first_loop_witness :
  let st' := sample_run [do_action "start"; do_action "start"; do_action "cancel";
                         do_action "resume"] initial in
  simulation_status st' = STATUS_RUNNING
  ∧ task_state <$> tasks st' !! 0%nat = Some Pending
  ∧ task_state <$> tasks st' !! 1%nat = Some Cancelled
  ∧ snapshots st' = snapshots initial
  ∧ snapshots (sample_step (Tick 0 true) st') = S (snapshots initial).
Proof.
  apply (second_start_leaks_first_loop sample_recorded sample_fcd_log [] initial
           ("0.00", [sample_vehicle])
           [("1.00", [<["x" := "26.39"]> sample_vehicle]); ("2.00", [])]).
  - reflexivity.
  - reflexivity.
  - reflexivity.
  - vm_compute. reflexivity.
  - intros Hlane. vm_compute in Hlane. discriminate.
Defined.

End ControllerInvariantExamples.
